(** * Linkify: a shallow embedding of [src/Linkify.js]

    The add-on reads the selection of the host word processor, resolves the
    first selected word to a link candidate (a file search or a reference
    page), and writes a hyperlink back into the document.

    The script's own functions ([getSelectedText], [createDriveUrls],
    [createWikiUrl], [linkify], [setLinkOnAllChildren], [insertLink]) are
    translated statement by statement.  The host services they call
    (document, selection, cursor, file search, HTTP fetch) are not part of
    the script; the document service is modelled by an explicit store of
    element objects, and the two remote services are the fields of a
    record the resolvers take as an argument. *)

From Stdlib Require Import ZArith String Ascii List Lia Bool.
From stdpp Require Import base option list gmap strings.

Local Open Scope string_scope.

(** ** JavaScript strings

    A string is a sequence of code units; the model keeps the code units
    below 256, which is all the literals of the script need. *)

Module JsString.

(** The double-quote character, code unit 34. *)
Definition dq : string := String "034"%char "".

Definition length (s : string) : nat := String.length s.

(** [clamp len z]: the integer [z] clamped to [0 .. len]. *)
Definition clamp (len : nat) (z : Z) : nat :=
  Z.to_nat (Z.min (Z.max z 0) (Z.of_nat len)).

(** [String.prototype.substring(start, end)]: both arguments are clamped to
    the length of the string and swapped when [start > end]. *)
Definition substring (s : string) (start end_ : Z) : string :=
  let a := clamp (length s) start in
  let b := clamp (length s) end_ in
  let lo := Nat.min a b in
  let hi := Nat.max a b in
  String.substring lo (hi - lo) s.

(** [String.prototype.charAt(pos)]: the one-character string at [pos], or
    the empty string when [pos] is out of range. *)
Definition charAt (s : string) (pos : Z) : string :=
  if (pos <? 0)%Z then ""
  else match String.get (Z.to_nat pos) s with
       | Some c => String c ""
       | None => ""
       end.

(** White space and line terminators removed by [trim], among the code
    units below 256: TAB, LF, VT, FF, CR, SP and NBSP. *)
Definition isWhiteSpace (c : ascii) : bool :=
  let n := nat_of_ascii c in
  existsb (Nat.eqb n) [9; 10; 11; 12; 13; 32; 160]%nat.

Fixpoint trimStart (s : string) : string :=
  match s with
  | String c s' => if isWhiteSpace c then trimStart s' else s
  | EmptyString => EmptyString
  end.

(** [trimEnd] keeps a character when it is not white space or when
    something that is kept follows it. *)
Fixpoint trimEnd (s : string) : string :=
  match s with
  | String c s' =>
      match trimEnd s' with
      | EmptyString => if isWhiteSpace c then EmptyString else String c EmptyString
      | t => String c t
      end
  | EmptyString => EmptyString
  end.

(** [String.prototype.trim()]. *)
Definition trim (s : string) : string := trimEnd (trimStart s).

(** *** [encodeURI] *)

Definition hexDigit (n : nat) : ascii :=
  if (n <? 10)%nat then ascii_of_nat (48 + n) else ascii_of_nat (55 + n).

(** [%XY] for one octet. *)
Definition percent (octet : nat) : string :=
  String "%"%char
    (String (hexDigit (octet / 16)) (String (hexDigit (octet mod 16)) "")).

Definition isAlphaNum (n : nat) : bool :=
  (((48 <=? n) && (n <=? 57)) || ((65 <=? n) && (n <=? 90))
   || ((97 <=? n) && (n <=? 122)))%nat.

(** The characters [encodeURI] leaves alone: alphanumerics, the marks
    [- _ . ! ~ * ' ( )], the reserved [; / ? : @ & = + $ ,] and [#]. *)
Definition uriUnescaped (c : ascii) : bool :=
  let n := nat_of_ascii c in
  isAlphaNum n
  || existsb (Nat.eqb n)
       (map nat_of_ascii
          (list_ascii_of_string "-_.!~*'();/?:@&=+$,#")).

(** A code unit from 128 up is written as the two octets of its UTF-8
    form.  (Surrogates, on which [encodeURI] can raise, are not among the
    code units of these strings.) *)
Definition encodeUnit (c : ascii) : string :=
  let n := nat_of_ascii c in
  if uriUnescaped c then String c ""
  else if (n <? 128)%nat then percent n
  else percent (192 + n / 64) ++ percent (128 + n mod 64).

Fixpoint encodeURI (s : string) : string :=
  match s with
  | String c s' => encodeUnit c ++ encodeURI s'
  | EmptyString => EmptyString
  end.

(** *** [replace] with a global pattern of literal characters

    [replaceAll pat by_ s] is [s.replace(/pat/g, by_)] for a non-empty
    pattern [pat] without metacharacters and a replacement [by_] without
    [$]: the scan goes left to right, a match is replaced and the scan
    resumes behind it.  [skip] counts the characters of the current match
    that are still to be stepped over. *)
Fixpoint replaceFrom (pat by_ : string) (skip : nat) (s : string) : string :=
  match s with
  | EmptyString => EmptyString
  | String c s' =>
      match skip with
      | S k => replaceFrom pat by_ k s'
      | O =>
          if String.prefix pat s
          then by_ ++ replaceFrom pat by_ (length pat - 1) s'
          else String c (replaceFrom pat by_ 0 s')
      end
  end.

Definition replaceAll (pat by_ s : string) : string := replaceFrom pat by_ 0 s.

(** [occursIn pat s]: [pat] occurs somewhere in [s]
    ([s.indexOf(pat) != -1]). *)
Fixpoint occursIn (pat s : string) : bool :=
  String.prefix pat s
  || match s with
     | String _ s' => occursIn pat s'
     | EmptyString => false
     end.

(** [occurrences pat s]: the number of positions of [s] at which [pat]
    starts. *)
Fixpoint occurrences (pat s : string) : nat :=
  (if String.prefix pat s then 1 else 0)
  + match s with
    | String _ s' => occurrences pat s'
    | EmptyString => 0
    end.

(** [lacks c s]: the character [c] does not occur in [s]. *)
Fixpoint lacks (c : ascii) (s : string) : bool :=
  match s with
  | EmptyString => true
  | String c' s' => negb (Ascii.eqb c c') && lacks c s'
  end.

End JsString.

(** ** The host document

    Elements are host objects with identity: the script holds references
    to them and every change it makes goes through a host call.  The store
    maps a reference to the part of an element the script can observe. *)

Module Host.

Definition ref := nat.

Inductive ElementType :=
| TEXT | PARAGRAPH | LIST_ITEM | TABLE | TABLE_ROW | TABLE_CELL
| INLINE_IMAGE | BODY_SECTION | OTHER_ELEMENT.

#[global] Instance ElementType_eq_dec : EqDecision ElementType.
Proof. solve_decision. Defined.

(** One element object.
    - [el_children] is [None] for a class without [getNumChildren]
      (text runs, images) and the child references of a container;
    - [el_editAsText] says whether the object has an [editAsText] method;
    - [el_text] is the text view of the element ([asText()]), one entry per
      character with the link that character carries;
    - [el_linkUrl] is the link attribute of the element itself. *)
Record Element := mkElement {
  el_type : ElementType;
  el_children : option (list ref);
  el_editAsText : bool;
  el_text : list (ascii * option string);
  el_linkUrl : option string
}.

(** A range element of a selection: the element it refers to, whether it
    covers the element only in part, and the offsets of the covered part. *)
Record RangeElement := mkRangeElement {
  getElement : ref;
  isPartial : bool;
  getStartOffset : Z;
  getEndOffsetInclusive : Z
}.

(** A cursor: the element whose text surrounds it and the offset in it. *)
Record Position := mkPosition {
  getSurroundingText : ref;
  getSurroundingTextOffset : Z
}.

(** The active document: its elements, the selection ([None] when the
    user selected nothing) and the cursor ([None] when there is none). *)
Record Document := mkDocument {
  elements : gmap ref Element;
  selection : option (list RangeElement);
  cursor : option Position
}.

(** What a script can raise: [throw] of a string, a [TypeError] of the
    language (a method of [undefined]), or a fault of the host. *)
Inductive exn :=
| Thrown (message : string)
| TypeError
| HostError.

(** The host calls that change the document. *)
Inductive Event :=
| SetLinkUrl (r : ref) (url : string)
| SetLinkUrlRange (r : ref) (startOffset endOffsetInclusive : Z) (url : string)
| InsertText (r : ref) (offset : Z) (s : string)
| SetLinkUrlInserted (r : ref) (offset len : nat) (url : string).

(** [paint P url t]: the characters of [t] whose index satisfies [P] get
    the link [url]. *)
Definition paint (P : nat -> bool) (url : string)
    (t : list (ascii * option string)) : list (ascii * option string) :=
  imap (fun i c => if P i then (fst c, Some url) else c) t.

Definition inRange (lo hi : Z) (i : nat) : bool :=
  ((lo <=? Z.of_nat i) && (Z.of_nat i <=? hi))%Z.

Definition inSpan (offset len i : nat) : bool :=
  ((offset <=? i) && (i <? offset + len))%nat.

Definition withText (el : Element) (t : list (ascii * option string)) : Element :=
  mkElement (el_type el) (el_children el) (el_editAsText el) t (el_linkUrl el).

Definition withLink (el : Element) (url : string) : Element :=
  mkElement (el_type el) (el_children el) (el_editAsText el)
    (paint (fun _ => true) url (el_text el)) (Some url).

Definition store (d : Document) (r : ref) (el : Element) : Document :=
  mkDocument (<[r := el]> (elements d)) (selection d) (cursor d).

Definition plain (s : string) : list (ascii * option string) :=
  map (fun c => (c, None)) (list_ascii_of_string s).

(** The element a host call works on. *)
Definition target (ev : Event) : ref :=
  match ev with
  | SetLinkUrl r _ => r
  | SetLinkUrlRange r _ _ _ => r
  | InsertText r _ _ => r
  | SetLinkUrlInserted r _ _ _ => r
  end.

(** The effect of one host call on its element; [None] when the host
    refuses it (offsets outside the text).
    - [setLinkUrl(url)] links the element and all of its text;
    - [setLinkUrl(start, endInclusive, url)] links that part of the text;
    - [insertText(s)] at a cursor puts [s] into the surrounding text and
      hands back the inserted run, on which [setLinkUrl(url)] links
      exactly that run.  The cursor object itself stays as it is. *)
Definition effect (ev : Event) (el : Element) : option Element :=
  match ev with
  | SetLinkUrl _ url => Some (withLink el url)
  | SetLinkUrlRange _ lo hi url =>
      if ((0 <=? lo) && (lo <=? hi) && (hi <? Z.of_nat (length (el_text el))))%Z
      then Some (withText el (paint (inRange lo hi) url (el_text el)))
      else None
  | InsertText _ offset s =>
      if ((0 <=? offset) && (offset <=? Z.of_nat (length (el_text el))))%Z
      then Some (withText el (take (Z.to_nat offset) (el_text el) ++ plain s
                              ++ drop (Z.to_nat offset) (el_text el)))
      else None
  | SetLinkUrlInserted _ offset len url =>
      Some (withText el (paint (inSpan offset len) url (el_text el)))
  end.

(** The effect of one host call on the document; [None] also when the
    reference is to no element. *)
Definition applyEvent (ev : Event) (d : Document) : option Document :=
  el ← elements d !! target ev;
  el' ← effect ev el;
  Some (store d (target ev) el').

Fixpoint replay (tr : list Event) (d : Document) : option Document :=
  match tr with
  | [] => Some d
  | ev :: tr' => d' ← applyEvent ev d; replay tr' d'
  end.

(** *** Computations of the script

    A computation starts in a document and either returns a value, or
    raises, in both cases with the document as the host calls made so far
    left it and the list of those calls; or it is cut off because the
    budget of steps ran out. *)
Inductive Outcome (A : Type) :=
| Ret (a : A) (d : Document) (tr : list Event)
| Raise (e : exn) (d : Document) (tr : list Event)
| OutOfFuel.
Arguments Ret {A} a d tr.
Arguments Raise {A} e d tr.
Arguments OutOfFuel {A}.

Definition M (A : Type) : Type := Document -> Outcome A.

Definition ret {A} (a : A) : M A := fun d => Ret a d [].

Definition throw {A} (e : exn) : M A := fun d => Raise e d [].

Definition outOfFuel {A} : M A := fun _ => OutOfFuel.

Definition bind {A B} (m : M A) (k : A -> M B) : M B :=
  fun d =>
    match m d with
    | Ret a d1 tr1 =>
        match k a d1 with
        | Ret b d2 tr2 => Ret b d2 (tr1 ++ tr2)
        | Raise e d2 tr2 => Raise e d2 (tr1 ++ tr2)
        | OutOfFuel => OutOfFuel
        end
    | Raise e d1 tr1 => Raise e d1 tr1
    | OutOfFuel => OutOfFuel
    end.

Notation "'let*' x ':=' m 'in' k" := (bind m (fun x => k))
  (at level 10, x name, m at level 100, k at level 200).
Notation "m '>>' k" := (bind m (fun _ => k))
  (at level 100, k at level 200, right associativity).

(** [array.forEach]-style loop over a script-local array, with an
    accumulator. *)
Fixpoint foldM {A B} (body : B -> A -> M B) (acc : B) (l : list A) : M B :=
  match l with
  | [] => ret acc
  | x :: l' => let* acc' := body acc x in foldM body acc' l'
  end.

(** [for (var i = from; i < bound(); i++) body(i)], the bound being read
    again before every round; [budget] bounds the number of tests. *)
Fixpoint forUpTo (budget : nat) (i : nat) (bound : M nat) (body : nat -> M unit)
    : M unit :=
  match budget with
  | O => outOfFuel
  | S budget' =>
      let* n := bound in
      if (i <? n)%nat
      then body i >> forUpTo budget' (S i) bound body
      else ret tt
  end.

(** *** Host calls *)

Definition getSelection : M (option (list RangeElement)) :=
  fun d => Ret (selection d) d [].

Definition getCursor : M (option Position) :=
  fun d => Ret (cursor d) d [].

(** Any use of a reference asks the host for the object behind it. *)
Definition deref (r : ref) : M Element :=
  fun d =>
    match elements d !! r with
    | Some el => Ret el d []
    | None => Raise HostError d []
    end.

Definition getType (r : ref) : M ElementType :=
  let* el := deref r in ret (el_type el).

(** The test [element.getNumChildren]: is there such a method? *)
Definition has_getNumChildren (r : ref) : M bool :=
  let* el := deref r in ret (bool_decide (is_Some (el_children el))).

Definition getNumChildren (r : ref) : M nat :=
  let* el := deref r in
  match el_children el with
  | Some cs => ret (length cs)
  | None => throw TypeError
  end.

Definition getChild (r : ref) (i : nat) : M ref :=
  let* el := deref r in
  match el_children el with
  | Some cs =>
      match cs !! i with
      | Some c => ret c
      | None => throw HostError
      end
  | None => throw TypeError
  end.

(** The test [element.editAsText]. *)
Definition has_editAsText (r : ref) : M bool :=
  let* el := deref r in ret (el_editAsText el).

Definition textOf (el : Element) : string :=
  string_of_list_ascii (map fst (el_text el)).

(** [element.asText().getText()]. *)
Definition getText (r : ref) : M string :=
  let* el := deref r in ret (textOf el).

Definition call (ev : Event) : M unit :=
  fun d =>
    match applyEvent ev d with
    | Some d' => Ret tt d' [ev]
    | None => Raise HostError d []
    end.

Definition setLinkUrl (r : ref) (url : string) : M unit :=
  call (SetLinkUrl r url).

Definition setLinkUrlRange (r : ref) (lo hi : Z) (url : string) : M unit :=
  call (SetLinkUrlRange r lo hi url).

(** [cursor.insertText(s).setLinkUrl(url)]. *)
Definition insertTextLinked (p : Position) (s url : string) : M unit :=
  call (InsertText (getSurroundingText p) (getSurroundingTextOffset p) s) >>
  call (SetLinkUrlInserted (getSurroundingText p)
          (Z.to_nat (getSurroundingTextOffset p)) (String.length s) url).

End Host.

(** ** The remote services

    [DriveApp.searchFiles(q)] yields the matching files in the order of
    the store; [UrlFetchApp.fetch(url, {muteHttpExceptions: true})] yields
    a response, of which the script reads the content text.  The record
    holds what the services reply; a call a service refuses (a query it
    cannot parse, an address it cannot reach) is not modelled, so what is
    proved of the resolvers is proved of calls that are answered. *)

Record File := mkFile {
  getName : string;
  getUrl : string
}.

Record Services := mkServices {
  searchFiles : string -> list File;
  fetch : string -> string
}.

(** ** The script *)

Module Linkify.
Import Host.

(** The object [{word: .., url: .., page: ..}]; [None] is [undefined]. *)
Record LinkResult := mkLinkResult {
  word : option string;
  url : option string;
  page : string
}.

Definition noTextSelected : string := "Please select some text.".

Definition noInsertionPoint : string :=
  "To insert, select a location in the document".

(** One round of the loop of [getSelectedText] (lines 49-67): what the
    range element [e] adds to the array [text]. *)
Definition getSelectedText_round (text : list string) (e : RangeElement)
    : M (list string) :=
  if isPartial e then
    let element := getElement e in
    let startIndex := getStartOffset e in
    let endIndex := getEndOffsetInclusive e in
    let* s := getText element in
    ret (text ++ [JsString.substring s startIndex (endIndex + 1)])%list
  else
    let element := getElement e in
    let* editable := has_editAsText element in
    if editable then
      let* elementText := getText element in
      if negb (String.eqb elementText "") then ret (text ++ [elementText])%list
      else ret text
    else ret text.

Definition getSelectedText : M (list string) :=
  let* selection := getSelection in
  match selection with
  | Some elements =>
      let* text := foldM getSelectedText_round [] elements in
      if (length text =? 0)%nat then throw (Thrown noTextSelected)
      else ret text
  | None => throw (Thrown noTextSelected)
  end.

(** String concatenation with a value that may be [undefined]. *)
Definition toString (v : option string) : string :=
  match v with
  | Some s => s
  | None => "undefined"
  end.

Definition formOpen : string :=
  Eval cbv in "<form action=" ++ JsString.dq ++ JsString.dq ++ "> ".

Definition radioOpen : string :=
  Eval cbv in
    "<input type=" ++ JsString.dq ++ "radio" ++ JsString.dq
    ++ " name=" ++ JsString.dq ++ "link" ++ JsString.dq
    ++ " value=" ++ JsString.dq.

Definition radioChecked : string :=
  Eval cbv in JsString.dq ++ " checked=true>".

(** The text one round of the loop of [createDriveUrls] appends for a
    file (line 100). *)
Definition radioInput (file : File) : string :=
  radioOpen ++ getUrl file ++ radioChecked ++ getName file ++ "<br>".

(** One round of the [while (files.hasNext())] loop (lines 96-101) on the
    pair of the variables [filesList] and [url]. *)
Definition createDriveUrls_round (st : string * option string) (file : File)
    : string * option string :=
  let filesList := fst st in
  let filesList := if String.eqb filesList "" then formOpen else filesList in
  (filesList ++ radioInput file, Some (getUrl file)).

Definition createDriveUrls (sv : Services) (text : list string) : LinkResult :=
  let word := text !! 0%nat in
  let q := "title contains '" ++ toString (text !! 0%nat) ++ "'" in
  let files := searchFiles sv q in
  let st := fold_left createDriveUrls_round files ("", None) in
  let filesList := fst st in
  let filesList :=
    if String.eqb filesList "" then "No matching results found :-("
    else filesList ++ "</form>" in
  mkLinkResult word (snd st) filesList.

Definition hrefAttr : string := Eval cbv in "href=" ++ JsString.dq.

Definition nohrefAttr : string := Eval cbv in "nohref=" ++ JsString.dq.

Definition createWikiUrl (sv : Services) (text : list string)
    (lang : option string) : exn + LinkResult :=
  match text !! 0%nat with
  | None => inl TypeError
  | Some text0 =>
      let word := JsString.trim text0 in
      let lang :=
        match lang with
        | Some l => if String.eqb l "" then "en" else l
        | None => "en"
        end in
      let url := "http://" ++ lang ++ ".wikipedia.org/wiki/"
                 ++ JsString.encodeURI word in
      let response := fetch sv url in
      let noLinks := JsString.replaceAll hrefAttr nohrefAttr response in
      inr (mkLinkResult (Some word) (Some url) noLinks)
  end.

Definition lift {A} (r : exn + A) : M A :=
  match r with
  | inl e => throw e
  | inr a => ret a
  end.

(** The values an argument of the script can be, as far as the script
    tells them apart: [undefined], [null], a boolean, a string, a String
    object, or an array of such values.  Numbers and other objects are
    left out. *)
#[local] Set Warnings "-register-all".
Inductive JsValue :=
| VUndefined
| VNull
| VBoolean (b : bool)
| VString (s : string)
| VStringObject (s : string)
| VArray (items : list JsValue).
#[local] Set Warnings "register-all".

(** [String(v)].  An array is its items joined by commas, where
    [undefined] and [null] items count as empty strings. *)
Fixpoint valueToString (v : JsValue) : string :=
  match v with
  | VUndefined => "undefined"
  | VNull => "null"
  | VBoolean b => if b then "true" else "false"
  | VString s => s
  | VStringObject s => s
  | VArray items =>
      (fix join (l : list JsValue) : string :=
         let item x :=
           match x with
           | VUndefined => ""
           | VNull => ""
           | _ => valueToString x
           end in
         match l with
         | [] => ""
         | [x] => item x
         | x :: l' => item x ++ "," ++ join l'
         end) items
  end.

(** [v == s] for a string [s] that is no numeric literal, as the two
    literals of [linkify] are: [undefined] and [null] equal no string, a
    boolean is compared as a number and the string is none, a string is
    compared as it is, and an object is compared by its primitive value,
    which for a String object is its string and for an array its
    [toString()]. *)
Definition looselyEquals (v : JsValue) (s : string) : bool :=
  match v with
  | VUndefined => false
  | VNull => false
  | VBoolean _ => false
  | VString m => String.eqb m s
  | VStringObject m => String.eqb m s
  | VArray _ => String.eqb (valueToString v) s
  end.

Definition linkify (sv : Services) (method : JsValue) (lang : option string)
    : M (option LinkResult) :=
  let* text := getSelectedText in
  if looselyEquals method "url" then
    let* r := lift (createWikiUrl sv text lang) in ret (Some r)
  else if looselyEquals method "searchDrive" then
    ret (Some (createDriveUrls sv text))
  else ret None.

(** [fuel] bounds the depth of the calls and the rounds of each loop. *)
Fixpoint setLinkOnAllChildren (fuel : nat) (element : ref) (link : string)
    : M unit :=
  match fuel with
  | O => outOfFuel
  | S fuel' =>
      let* hasMethod := has_getNumChildren element in
      let* leaf :=
        (if negb hasMethod then ret true
         else let* n := getNumChildren element in ret (n =? 0)%nat) in
      if leaf then setLinkUrl element link
      else
        forUpTo fuel' 0 (getNumChildren element)
          (fun i =>
             let* child := getChild element i in
             setLinkOnAllChildren fuel' child link)
  end.

(** One round of the loop of [insertLink] over the selection
    (lines 170-181). *)
Definition insertLink_round (fuel : nat) (link : string) (e : RangeElement)
    : M unit :=
  let element := getElement e in
  let* ty := getType element in
  if bool_decide (ty = TEXT) && isPartial e then
    let startIndex := getStartOffset e in
    let endIndex := getEndOffsetInclusive e in
    setLinkUrlRange element startIndex endIndex link
  else
    setLinkOnAllChildren fuel element link.

(** Lines 194-203: the spaces put around [newText] at a cursor. *)
Definition padded (surroundingText : string) (surroundingTextOffset : Z)
    (newText : string) : string :=
  let newText :=
    if (surroundingTextOffset >? 0)%Z then
      if negb (String.eqb
                 (JsString.charAt surroundingText (surroundingTextOffset - 1))
                 " ")
      then " " ++ newText else newText
    else newText in
  if (surroundingTextOffset <? Z.of_nat (JsString.length surroundingText))%Z then
    if negb (String.eqb
               (JsString.charAt surroundingText surroundingTextOffset) " ")
    then newText ++ " " else newText
  else newText.

Definition insertLink (fuel : nat) (newText link : string) : M unit :=
  let* selection := getSelection in
  match selection with
  | Some elements =>
      foldM (fun _ e => insertLink_round fuel link e) tt elements
  | None =>
      let* cursor := getCursor in
      match cursor with
      | None => throw (Thrown noInsertionPoint)
      | Some cursor =>
          let* surroundingText := getText (getSurroundingText cursor) in
          let surroundingTextOffset := getSurroundingTextOffset cursor in
          insertTextLinked cursor
            (padded surroundingText surroundingTextOffset newText) link
      end
  end.

End Linkify.

(** ** Element trees

    A finite acyclic element tree, as the host promises one: every node is
    a reference, and the store gives a node without children either no
    child list at all or an empty one, and a node with children the list
    of their references. *)

Module Shape.
Import Host.

#[local] Set Warnings "-register-all".
Inductive Tree := Node (r : ref) (kids : list Tree).
#[local] Set Warnings "register-all".

Definition root (t : Tree) : ref :=
  match t with Node r _ => r end.

Definition isLeafElement (el : Element) : bool :=
  match el_children el with
  | None => true
  | Some cs => (length cs =? 0)%nat
  end.

Fixpoint represents (els : gmap ref Element) (t : Tree) : bool :=
  match t with
  | Node r kids =>
      match els !! r with
      | None => false
      | Some el =>
          match kids with
          | [] => isLeafElement el
          | _ :: _ =>
              bool_decide (el_children el = Some (map root kids))
              && forallb (represents els) kids
          end
      end
  end.

(** The leaves in depth-first order, children by index. *)
Fixpoint leaves (t : Tree) : list ref :=
  match t with
  | Node r [] => [r]
  | Node r kids => flat_map leaves kids
  end.

(** The nodes that have children. *)
Fixpoint composites (t : Tree) : list ref :=
  match t with
  | Node r [] => []
  | Node r kids => r :: flat_map composites kids
  end.

Fixpoint size (t : Tree) : nat :=
  match t with
  | Node _ kids => S (list_sum (map size kids))
  end.

(** What control flow can observe of an element: everything but links. *)
Definition skeleton (el : Element)
    : ElementType * option (list ref) * bool * list ascii :=
  (el_type el, el_children el, el_editAsText el, map fst (el_text el)).

Definition sameShape (d e : Document) : Prop :=
  selection d = selection e /\ cursor d = cursor e
  /\ forall r, skeleton <$> (elements d !! r) = skeleton <$> (elements e !! r).

(** A host call that only sets the link [url]. *)
Definition linksTo (url : string) (ev : Event) : Prop :=
  match ev with
  | SetLinkUrl _ u => u = url
  | SetLinkUrlRange _ _ _ u => u = url
  | _ => False
  end.

(** A host call that changes nothing in [d]. *)
Definition settled (d : Document) (ev : Event) : Prop :=
  applyEvent ev d = Some d.

(** A computation that only links to [url]: when it returns, the document
    it leaves is the replay of its calls, the calls only set the link
    [url], and from a document of the same shape it returns the same
    value after the same calls. *)
Definition tidy {A} (url : string) (m : M A) : Prop :=
  forall d a d1 tr,
    m d = Ret a d1 tr ->
    replay tr d = Some d1
    /\ Forall (linksTo url) tr
    /\ forall e, sameShape d e -> exists e1, m e = Ret a e1 tr.

(** A computation that never raises a thrown string. *)
Definition quiet {A} (m : M A) : Prop :=
  forall d e d1 tr, m d = Raise e d1 tr -> e = HostError \/ e = TypeError.

End Shape.

(** ** Readings of the claims' words *)

Module Reading.
Import Host Linkify.

(** The host knows the element of the range element. *)
Definition resolves (d : Document) (e : RangeElement) : bool :=
  bool_decide (is_Some (elements d !! getElement e)).

(** What a range element over the element [el] contributes to the
    selected text. *)
Definition pushed (el : Element) (e : RangeElement) : list string :=
  if isPartial e then
    [JsString.substring (textOf el) (getStartOffset e)
       (getEndOffsetInclusive e + 1)]
  else if el_editAsText el && negb (String.eqb (textOf el) "") then [textOf el]
  else [].

Definition pushedIn (d : Document) (e : RangeElement) : list string :=
  match elements d !! getElement e with
  | Some el => pushed el e
  | None => []
  end.

(** A range element from which [getSelectedText] takes nothing: a whole
    element that is not text-editable, or whose text is empty. *)
Definition yieldsNoText (d : Document) (e : RangeElement) : bool :=
  match elements d !! getElement e with
  | None => false
  | Some el =>
      negb (isPartial e)
      && (negb (el_editAsText el) || String.eqb (textOf el) "")
  end.

(** The character before and after the offset [off] of [s], if any. *)
Definition charBefore (s : string) (off : nat) : option ascii :=
  match off with
  | O => None
  | S k => String.get k s
  end.

Definition charAfter (s : string) (off : nat) : option ascii :=
  String.get off s.

(** A character that exists and is not a space. *)
Definition wantsSpace (c : option ascii) : bool :=
  match c with
  | Some c => negb (Ascii.eqb c " "%char)
  | None => false
  end.

Definition pad (b : bool) : string := if b then " " else "".

(** The element carries the link [url] and so does all of its text. *)
Definition linked (url : string) (el : Element) : Prop :=
  el_linkUrl el = Some url
  /\ Forall (fun c => snd c = Some url) (el_text el).

(** Claim C1 as it is worded: the page of the reference lookup holds no
    occurrence of [hrefAttr] at all. *)
Definition pageWithoutHref (sv : Services) (text : list string) : Prop :=
  match createWikiUrl sv text None with
  | inr r => JsString.occursIn hrefAttr (page r) = false
  | inl _ => False
  end.

(** Claim C3 as it is worded, in its last part: only the last candidate
    is marked, so the mark [checked=true] is written once in the page. *)
Definition oneChecked (sv : Services) (text : list string) : Prop :=
  JsString.occurrences " checked=true>" (page (createDriveUrls sv text)) = 1%nat.

(** Claim C2 as it is worded, at one document: a second application
    changes nothing. *)
Definition reapplyingChangesNothing (fuel : nat) (newText link : string)
    (d : Document) : Prop :=
  forall d1 tr1, insertLink fuel newText link d = Ret tt d1 tr1 ->
    exists tr2, insertLink fuel newText link d1 = Ret tt d1 tr2.

(** Claim C9 as it is worded, at one argument: any argument other than
    the strings url and searchDrive makes [linkify] return [undefined]
    after the extraction. *)
Definition otherArgumentMeansUndefined (sv : Services) (method : JsValue)
    (lang : option string) (d : Document) : Prop :=
  method <> VString "url" ->
  method <> VString "searchDrive" ->
  forall text d' tr,
    getSelectedText d = Ret text d' tr ->
    linkify sv method lang d = Ret None d' tr.

(** An argument that [==] compares with the two method names as a plain
    value: [undefined], [null], a boolean or a string. *)
Definition plainValue (v : JsValue) : bool :=
  match v with
  | VUndefined => true
  | VNull => true
  | VBoolean _ => true
  | VString _ => true
  | VStringObject _ => false
  | VArray _ => false
  end.


End Reading.

(** ** Sample documents and services *)

Module Sample.
Import Host Linkify Shape.

Definition textElement (s : string) : Element :=
  mkElement TEXT None true (plain s) None.

Definition paragraph (kids : list ref) : Element :=
  mkElement PARAGRAPH (Some kids) true [] None.

Definition image : Element :=
  mkElement INLINE_IMAGE None false [] None.

Definition whole (r : ref) : RangeElement := mkRangeElement r false (-1) (-1).

(** A paragraph with three children, the second of which has two. *)
Definition nestedElements : gmap ref Element :=
  list_to_map
    [(1, paragraph [2; 3; 4]); (2, textElement "ab"); (3, paragraph [5; 6]);
     (4, image); (5, textElement "c"); (6, textElement "d")]%nat.

Definition nestedTree : Tree :=
  Node 1 [Node 2 []; Node 3 [Node 5 []; Node 6 []]; Node 4 []]%nat.

Definition nestedDoc : Document :=
  mkDocument nestedElements (Some [whole 1%nat]) None.

Definition helloDoc : Document :=
  mkDocument (list_to_map [(1%nat, textElement "hello")])
    (Some [mkRangeElement 1%nat true 1 3]) None.

Definition imageDoc : Document :=
  mkDocument (list_to_map [(1%nat, image)]) (Some [whole 1%nat]) None.

Definition cursorDoc (s : string) (off : Z) : Document :=
  mkDocument (list_to_map [(1%nat, textElement s)]) None
    (Some (mkPosition 1%nat off)).

Definition emptyDoc : Document := mkDocument ∅ None None.

(** A store the host never builds: a paragraph that is its own child. *)
Definition cyclicDoc : Document :=
  mkDocument (list_to_map [(1%nat, paragraph [1%nat])])
    (Some [whole 1%nat]) None.

Definition twoFiles : Services :=
  mkServices (fun _ => [mkFile "notes" "u1"; mkFile "plan" "u2"])
    (fun _ => "").

Definition anchorPage : Services :=
  mkServices (fun _ => []) (fun _ => "<a " ++ hrefAttr ++ "/wiki/Dog" ++ JsString.dq ++ ">").

(** A store that is no tree: two paragraphs share their only child. *)
Definition sharedDoc : Document :=
  mkDocument
    (list_to_map [(1%nat, paragraph [2%nat; 4%nat]); (2%nat, paragraph [3%nat]);
                  (4%nat, paragraph [3%nat]); (3%nat, textElement "x")])
    (Some [whole 1%nat]) None.

(** Two text elements, selected whole, the second first. *)
Definition twoTextsDoc : Document :=
  mkDocument
    (list_to_map [(1%nat, textElement "hello"); (2%nat, textElement "world")])
    (Some [whole 2%nat; whole 1%nat]) None.

End Sample.

(** * Facts

    ** Strings *)

Module JsStringFacts.
Import JsString Linkify.

Lemma append_cons (c : ascii) (s t : string) :
  String c s ++ t = String c (s ++ t).
Proof. reflexivity. Qed.

Lemma append_nil (t : string) : "" ++ t = t.
Proof. reflexivity. Qed.

Ltac push_app := repeat (rewrite append_cons || rewrite append_nil).

Lemma prefix_split (p s : string) :
  String.prefix p s = true -> exists s', s = p ++ s'.
Proof.
  revert s. induction p as [|c p IH]; intros s H.
  - exists s. reflexivity.
  - destruct s as [|c' s]; simpl in H; [discriminate|].
    destruct (Ascii.ascii_dec c c') as [->|]; [|discriminate].
    destruct (IH _ H) as [s' ->]. exists s'. reflexivity.
Qed.

Lemma prefix_app (p s : string) : String.prefix p (p ++ s) = true.
Proof.
  induction p as [|c p IH]; [destruct s; reflexivity|].
  push_app. simpl. destruct (Ascii.ascii_dec c c); [assumption|congruence].
Qed.

Lemma replaceFrom_skip (pat by_ p s : string) :
  replaceFrom pat by_ (String.length p) (p ++ s) = replaceFrom pat by_ 0 s.
Proof. induction p as [|c p IH]; push_app; simpl; auto. Qed.

Lemma append_length (s t : string) :
  String.length (s ++ t) = (String.length s + String.length t)%nat.
Proof. induction s as [|c s IH]; push_app; simpl; auto. Qed.

Lemma append_assoc (s t u : string) : (s ++ t) ++ u = s ++ t ++ u.
Proof. induction s as [|c s IH]; push_app; [reflexivity|]. rewrite IH. reflexivity. Qed.

Lemma unlink_match (s : string) :
  replaceAll hrefAttr nohrefAttr (hrefAttr ++ s) = nohrefAttr ++ replaceAll hrefAttr nohrefAttr s.
Proof.
  unfold replaceAll.
  pose proof (prefix_app hrefAttr s) as Hp.
  pose proof (replaceFrom_skip hrefAttr nohrefAttr ("ref=" ++ dq) s) as Hs.
  assert (E : hrefAttr ++ s = String "h" (("ref=" ++ dq) ++ s)) by reflexivity.
  rewrite E in Hp |- *. cbn [replaceFrom]. rewrite Hp. f_equal; try exact Hs.
Qed.

Lemma unlink_step (c : ascii) (s : string) :
  String.prefix hrefAttr (String c s) = false ->
  replaceAll hrefAttr nohrefAttr (String c s) = String c (replaceAll hrefAttr nohrefAttr s).
Proof. intros H. unfold replaceAll. cbn [replaceFrom]. rewrite H. reflexivity. Qed.

Lemma unlink_head (x o : string) (c : ascii) :
  replaceAll hrefAttr nohrefAttr x = String c o -> c <> "n"%char ->
  exists x', x = String c x' /\ replaceAll hrefAttr nohrefAttr x' = o
             /\ String.prefix hrefAttr x = false.
Proof.
  intros H Hc. destruct x as [|c0 x]; [discriminate|].
  destruct (String.prefix hrefAttr (String c0 x)) eqn:E.
  - destruct (prefix_split _ _ E) as [s' Hs]. rewrite Hs, unlink_match in H.
    unfold nohrefAttr in H. rewrite append_cons in H. congruence.
  - rewrite unlink_step in H by assumption. injection H as -> <-. eauto.
Qed.

Lemma unlink_tail (s post : string) :
  String.prefix hrefAttr (String "h" s) = false ->
  replaceAll hrefAttr nohrefAttr s <> "ref=" ++ dq ++ post.
Proof.
  intros Hp H. unfold dq in H. revert H. push_app. intros H.
  apply unlink_head in H as (s1 & -> & H & _); [|discriminate].
  apply unlink_head in H as (s2 & -> & H & _); [|discriminate].
  apply unlink_head in H as (s3 & -> & H & _); [|discriminate].
  apply unlink_head in H as (s4 & -> & H & _); [|discriminate].
  apply unlink_head in H as (s5 & -> & H & _); [|discriminate].
  pose proof (prefix_app hrefAttr s5) as Hq. unfold hrefAttr at 2 in Hq.
  revert Hq. push_app. intros Hq. congruence.
Qed.

Lemma unlink_occurrence (n : nat) (s pre post : string) :
  String.length s <= n ->
  replaceAll hrefAttr nohrefAttr s = pre ++ hrefAttr ++ post ->
  exists pre', pre = pre' ++ "no".
Proof.
  revert s pre post. induction n as [|n IH]; intros s pre post Hn H.
  - destruct s; [|simpl in Hn; lia]. destruct pre; discriminate.
  - destruct s as [|c s]; [destruct pre; discriminate|].
    destruct (String.prefix hrefAttr (String c s)) eqn:E.
    + destruct (prefix_split _ _ E) as [s' Hs]. rewrite Hs in H, Hn.
      rewrite unlink_match in H. unfold nohrefAttr, hrefAttr in H.
      revert H. push_app.
      do 2 (destruct pre as [|? pre]; push_app; [discriminate|]; intros [= <- H]; revert H).
      destruct pre as [|? pre]; push_app; [intros _; exists ""; reflexivity|].
      intros [= <- H]; revert H.
      do 5 (destruct pre as [|? pre]; push_app; [discriminate|]; intros [= <- H]; revert H).
      intros H. 
      assert (Hl : String.length s' <= n).
      { rewrite append_length in Hn. unfold hrefAttr in Hn. simpl in Hn. lia. }
      destruct (IH s' pre post Hl) as [pre' ->]. { exact H. }
      exists (nohrefAttr ++ pre'). unfold nohrefAttr. push_app. reflexivity.
    + rewrite unlink_step in H by assumption.
      destruct pre as [|c' pre].
      * exfalso. revert H. unfold hrefAttr. push_app. intros [= -> H].
        apply (unlink_tail s post); [exact E|]. exact H.
      * revert H. push_app. intros [= <- H].
        destruct (IH s pre post) as [pre' ->]; [simpl in Hn; lia|exact H|].
        exists (String c pre'). reflexivity.
Qed.
End JsStringFacts.

(** ** The host *)

Module HostFacts.
Import Host Shape.
Local Close Scope string_scope.

Section Monad.
Context {A B : Type}.

Lemma bind_ret_l (a : A) (k : A -> M B) (d : Document) :
  bind (ret a) k d = k a d.
Proof. unfold bind, ret. destruct (k a d); reflexivity. Qed.

Lemma bind_Ret (m : M A) (k : A -> M B) d a d1 tr1 b d2 tr2 :
  m d = Ret a d1 tr1 -> k a d1 = Ret b d2 tr2 ->
  bind m k d = Ret b d2 (tr1 ++ tr2).
Proof. intros H1 H2. unfold bind. rewrite H1, H2. reflexivity. Qed.

Lemma bind_Ret_inv (m : M A) (k : A -> M B) d b d2 tr :
  bind m k d = Ret b d2 tr ->
  exists a d1 tr1 tr2,
    m d = Ret a d1 tr1 /\ k a d1 = Ret b d2 tr2 /\ tr = tr1 ++ tr2.
Proof.
  unfold bind. destruct (m d) as [a d1 tr1| |]; [|discriminate..].
  destruct (k a d1) as [b' d2' tr2| |] eqn:E; [|discriminate..].
  intros [= -> -> <-]. eauto 10.
Qed.

Lemma bind_Raise_inv (m : M A) (k : A -> M B) d x d2 tr :
  bind m k d = Raise x d2 tr ->
  m d = Raise x d2 tr
  \/ exists a d1 tr1 tr2,
       m d = Ret a d1 tr1 /\ k a d1 = Raise x d2 tr2 /\ tr = tr1 ++ tr2.
Proof.
  unfold bind. destruct (m d) as [a d1 tr1| |]; [| |discriminate].
  - destruct (k a d1) as [|x' d2' tr2|] eqn:E; [discriminate| |discriminate].
    intros [= -> -> <-]. right. eauto 10.
  - intros [= -> -> ->]. left. reflexivity.
Qed.
End Monad.

(** *** Painting *)

Lemma paint_lookup P url t i :
  paint P url t !! i
  = (fun c => if P i then (fst c, Some url) else c) <$> (t !! i).
Proof. unfold paint. apply list_lookup_imap. Qed.

Lemma paint_length P url t : length (paint P url t) = length t.
Proof. unfold paint. apply length_imap. Qed.

Lemma paint_fst P url t : map fst (paint P url t) = map fst t.
Proof.
  apply list_eq. intros i. rewrite !list_lookup_fmap, paint_lookup.
  destruct (t !! i) as [c|]; simpl; [|reflexivity].
  destruct (P i); reflexivity.
Qed.

(** Painting with the same link keeps what an earlier painting did. *)
Lemma paint_keeps P Q url t :
  paint P url t = t -> paint P url (paint Q url t) = paint Q url t.
Proof.
  intros H. apply list_eq. intros i.
  assert (Hi := f_equal (fun l => l !! i) H). simpl in Hi.
  rewrite !paint_lookup in *.
  destruct (t !! i) as [[c l]|]; simpl in *; [|reflexivity].
  destruct (P i), (Q i); simpl; congruence.
Qed.

Lemma paint_idem P url t : paint P url (paint P url t) = paint P url t.
Proof.
  apply list_eq. intros i. rewrite !paint_lookup.
  destruct (t !! i) as [[c l]|]; simpl; [|reflexivity].
  destruct (P i); reflexivity.
Qed.

(** *** Element-level facts about the linking calls *)

Ltac case_if_in H :=
  match type of H with
  | context [if ?c then _ else _] => destruct c eqn:?; [|discriminate H]
  end.

Lemma withLink_skeleton el url : skeleton (withLink el url) = skeleton el.
Proof. unfold skeleton, withLink. simpl. rewrite paint_fst. reflexivity. Qed.

Lemma effect_skeleton url ev el el' :
  linksTo url ev -> effect ev el = Some el' -> skeleton el' = skeleton el.
Proof.
  destruct ev; simpl; intros Hl H; try contradiction.
  - injection H as <-. apply withLink_skeleton.
  - destruct (_ && _)%bool; [|discriminate]. injection H as <-.
    unfold skeleton, withText. simpl. rewrite paint_fst. reflexivity.
Qed.

Lemma skeleton_length el el' :
  skeleton el = skeleton el' -> length (el_text el) = length (el_text el').
Proof.
  unfold skeleton. intros [= _ _ _ H].
  rewrite <- (length_map fst (el_text el)), H. apply length_map.
Qed.

Lemma effect_steady url ev el el1 el' :
  linksTo url ev -> skeleton el = skeleton el1 -> effect ev el = Some el' ->
  is_Some (effect ev el1).
Proof.
  destruct ev; simpl; intros Hl Hs H; try contradiction; [eauto|].
  rewrite <- (skeleton_length _ _ Hs).
  destruct (_ && _)%bool; [eauto|discriminate].
Qed.

(** A link call that went through changes nothing when made again. *)
Lemma effect_idem url ev el el' :
  linksTo url ev -> effect ev el = Some el' -> effect ev el' = Some el'.
Proof.
  destruct ev; simpl; intros Hl H; try contradiction.
  - injection H as <-. unfold withLink. simpl. rewrite paint_idem. reflexivity.
  - destruct (_ && _)%bool eqn:E; [|discriminate]. injection H as <-.
    simpl. rewrite paint_length, E. unfold withText. simpl.
    rewrite paint_idem. reflexivity.
Qed.

(** A link call that changes nothing still changes nothing after another
    call that sets the same link. *)
Lemma effect_keeps url ev ev' el el' :
  linksTo url ev -> linksTo url ev' ->
  effect ev el = Some el -> effect ev' el = Some el' ->
  effect ev el' = Some el'.
Proof.
  destruct ev; simpl; intros Hl Hl' H H'; try contradiction; subst url0.
  - apply (inj Some) in H. assert (Ht := f_equal el_text H).
    assert (Hu := f_equal el_linkUrl H). simpl in Ht, Hu.
    destruct ev'; simpl in *; try contradiction; subst url0.
    + injection H' as <-. unfold withLink. simpl. rewrite paint_idem. reflexivity.
    + case_if_in H'. injection H' as <-.
      unfold withLink, withText. simpl.
      rewrite (paint_keeps _ _ _ _ Ht), <- Hu. reflexivity.
  - destruct (_ && _)%bool eqn:E in H; [|discriminate]. apply (inj Some) in H.
    assert (Ht := f_equal el_text H). simpl in Ht.
    destruct ev'; simpl in *; try contradiction; subst url0.
    + injection H' as <-. simpl. rewrite paint_length, E.
      unfold withLink, withText. simpl.
      rewrite (paint_keeps _ _ _ _ Ht). reflexivity.
    + case_if_in H'. injection H' as <-.
      simpl. rewrite paint_length, E. unfold withText. simpl.
      rewrite (paint_keeps _ _ _ _ Ht). reflexivity.
Qed.

(** *** Documents *)

Lemma store_lookup d r el r' :
  elements (store d r el) !! r'
  = if decide (r = r') then Some el else elements d !! r'.
Proof. unfold store. simpl. apply lookup_insert. Qed.

Lemma store_id d r el : elements d !! r = Some el -> store d r el = d.
Proof.
  intros H. destruct d as [els sel cur]. unfold store. simpl in *.
  f_equal. apply insert_id. exact H.
Qed.

Lemma store_fixed d r el : store d r el = d -> elements d !! r = Some el.
Proof.
  intros H. rewrite <- H at 1. rewrite store_lookup.
  destruct (decide (r = r)); congruence.
Qed.

Lemma applyEvent_inv ev d d' :
  applyEvent ev d = Some d' ->
  exists el el',
    elements d !! target ev = Some el /\ effect ev el = Some el'
    /\ d' = store d (target ev) el'.
Proof.
  unfold applyEvent. intros H.
  destruct (elements d !! target ev) as [el|]; [|discriminate]. simpl in H.
  destruct (effect ev el) as [el'|] eqn:E; [|discriminate]. simpl in H.
  injection H as <-. exists el, el'. auto.
Qed.

Lemma applyEvent_intro ev d el el' :
  elements d !! target ev = Some el -> effect ev el = Some el' ->
  applyEvent ev d = Some (store d (target ev) el').
Proof. intros H1 H2. unfold applyEvent. rewrite H1. simpl. rewrite H2. reflexivity. Qed.

Lemma settled_iff d ev :
  settled d ev <->
  exists el, elements d !! target ev = Some el /\ effect ev el = Some el.
Proof.
  unfold settled. split.
  - intros H. destruct (applyEvent_inv _ _ _ H) as (el & el' & H1 & H2 & H3).
    symmetry in H3. apply store_fixed in H3. exists el. split; congruence.
  - intros (el & H1 & H2). rewrite (applyEvent_intro _ _ _ _ H1 H2).
    f_equal. apply store_id. exact H1.
Qed.

Lemma applyEvent_settles url ev d d' :
  linksTo url ev -> applyEvent ev d = Some d' -> settled d' ev.
Proof.
  intros Hl H. destruct (applyEvent_inv _ _ _ H) as (el & el' & H1 & H2 & ->).
  apply settled_iff. exists el'. split.
  - rewrite store_lookup. destruct (decide _); congruence.
  - eapply effect_idem; eassumption.
Qed.

Lemma applyEvent_keeps url ev ev' d d' :
  linksTo url ev -> linksTo url ev' ->
  settled d ev -> applyEvent ev' d = Some d' -> settled d' ev.
Proof.
  intros Hl Hl' Hs H. apply settled_iff in Hs as (el & H1 & H2).
  destruct (applyEvent_inv _ _ _ H) as (el0 & el' & H3 & H4 & ->).
  apply settled_iff. rewrite store_lookup.
  destruct (decide (target ev' = target ev)) as [E|E].
  - exists el'. split; [reflexivity|]. rewrite E in H3.
    assert (el0 = el) as -> by congruence.
    eapply effect_keeps; eassumption.
  - exists el. split; assumption.
Qed.

Lemma replay_app tr1 tr2 d :
  replay (tr1 ++ tr2) d = replay tr1 d ≫= replay tr2.
Proof.
  revert d. induction tr1 as [|ev tr1 IH]; intros d; simpl; [reflexivity|].
  destruct (applyEvent ev d) as [d'|]; simpl; [apply IH|reflexivity].
Qed.

Lemma replay_settles url tr d d' :
  Forall (linksTo url) tr -> replay tr d = Some d' ->
  (forall ev, linksTo url ev -> settled d ev -> settled d' ev)
  /\ Forall (settled d') tr.
Proof.
  intros Hl. revert d. induction Hl as [|ev tr Hev Hl IH]; intros d H; simpl in H.
  - injection H as <-. split; [auto|constructor].
  - destruct (applyEvent ev d) as [d1|] eqn:E; [|discriminate]. simpl in H.
    destruct (IH _ H) as [IH1 IH2]. split.
    + intros ev' Hl' Hs. apply IH1; [assumption|].
      apply (applyEvent_keeps url ev' ev d d1); assumption.
    + constructor; [|assumption].
      apply IH1; [assumption|]. eapply applyEvent_settles; eassumption.
Qed.

Lemma replay_settled tr d : Forall (settled d) tr -> replay tr d = Some d.
Proof.
  induction 1 as [|ev tr Hev _ IH]; simpl; [reflexivity|].
  unfold settled in Hev. rewrite Hev. simpl. exact IH.
Qed.

(** Replaying link calls a second time changes nothing. *)
Lemma replay_idem url tr d d' :
  Forall (linksTo url) tr -> replay tr d = Some d' -> replay tr d' = Some d'.
Proof.
  intros Hl H. apply replay_settled.
  eapply replay_settles; eassumption.
Qed.

(** *** Documents of the same shape *)

Lemma sameShape_refl d : sameShape d d.
Proof. repeat split. Qed.

Lemma sameShape_sym d e : sameShape d e -> sameShape e d.
Proof. intros (H1 & H2 & H3). repeat split; auto. Qed.

Lemma sameShape_trans d e f : sameShape d e -> sameShape e f -> sameShape d f.
Proof.
  intros (H1 & H2 & H3) (H4 & H5 & H6).
  split; [congruence|split; [congruence|]].
  intros r. rewrite H3. apply H6.
Qed.

Lemma sameShape_lookup d e r el :
  sameShape d e -> elements d !! r = Some el ->
  exists el', elements e !! r = Some el' /\ skeleton el = skeleton el'.
Proof.
  intros (_ & _ & H) Hr. specialize (H r). rewrite Hr in H. simpl in H.
  destruct (elements e !! r) as [el'|]; [|discriminate].
  apply (inj Some) in H. eauto.
Qed.

Lemma applyEvent_shape url ev d d' :
  linksTo url ev -> applyEvent ev d = Some d' -> sameShape d d'.
Proof.
  intros Hl H. destruct (applyEvent_inv _ _ _ H) as (el & el' & H1 & H2 & ->).
  repeat split. intros r. rewrite store_lookup.
  destruct (decide (target ev = r)) as [<-|]; [|reflexivity].
  rewrite H1. simpl. f_equal. symmetry. eapply effect_skeleton; eassumption.
Qed.

Lemma replay_shape url tr d d' :
  Forall (linksTo url) tr -> replay tr d = Some d' -> sameShape d d'.
Proof.
  intros Hl. revert d. induction Hl as [|ev tr Hev _ IH]; intros d H; simpl in H.
  - injection H as <-. apply sameShape_refl.
  - destruct (applyEvent ev d) as [d1|] eqn:E; [|discriminate].
    eapply sameShape_trans; [eapply applyEvent_shape; eassumption|]. apply IH, H.
Qed.

Lemma applyEvent_steady url ev d e d' :
  linksTo url ev -> sameShape d e -> applyEvent ev d = Some d' ->
  is_Some (applyEvent ev e).
Proof.
  intros Hl Hs H. destruct (applyEvent_inv _ _ _ H) as (el & el' & H1 & H2 & _).
  destruct (sameShape_lookup _ _ _ _ Hs H1) as (el1 & H3 & H4).
  destruct (effect_steady _ _ _ _ _ Hl H4 H2) as [el1' H5].
  rewrite (applyEvent_intro _ _ _ _ H3 H5). eauto.
Qed.

(** *** Computations that only link *)

Lemma tidy_ret {A} url (a : A) : tidy url (ret a).
Proof.
  intros d a' d1 tr [= <- <- <-]. repeat split; [constructor|].
  intros e _. exists e. reflexivity.
Qed.

Lemma tidy_throw {A} url (x : exn) : tidy url (@throw A x).
Proof. intros d a d1 tr H. discriminate H. Qed.

Lemma tidy_outOfFuel {A} url : tidy url (@outOfFuel A).
Proof. intros d a d1 tr H. discriminate H. Qed.

Lemma tidy_bind {A B} url (m : M A) (k : A -> M B) :
  tidy url m -> (forall a, tidy url (k a)) -> tidy url (bind m k).
Proof.
  intros Hm Hk d b d2 tr H.
  destruct (bind_Ret_inv _ _ _ _ _ _ H) as (a & d1 & tr1 & tr2 & H1 & H2 & ->).
  destruct (Hm _ _ _ _ H1) as (R1 & L1 & S1).
  destruct (Hk a _ _ _ _ H2) as (R2 & L2 & S2).
  split; [|split].
  - rewrite replay_app, R1. exact R2.
  - apply Forall_app. split; assumption.
  - intros e He. destruct (S1 e He) as [e1 E1].
    destruct (Hm _ _ _ _ E1) as (R1' & _ & _).
    assert (He1 : sameShape d1 e1).
    { apply (sameShape_trans _ d); [apply sameShape_sym, (replay_shape url tr1); assumption|].
      apply (sameShape_trans _ e); [exact He|].
      apply (replay_shape url tr1); assumption. }
    destruct (S2 e1 He1) as [e2 E2]. exists e2.
    eapply bind_Ret; eassumption.
Qed.

(** A read of one element that depends on its skeleton only. *)
Lemma tidy_deref {A} url r (g : Element -> M A) :
  (forall el, tidy url (g el)) ->
  (forall el el', skeleton el = skeleton el' -> g el = g el') ->
  tidy url (bind (deref r) g).
Proof.
  intros Hg Hsk d a d1 tr H.
  destruct (bind_Ret_inv _ _ _ _ _ _ H) as (el & d0 & tr1 & tr2 & H1 & H2 & ->).
  unfold deref in H1. destruct (elements d !! r) as [el0|] eqn:Er; [|discriminate].
  injection H1 as -> <- <-. simpl.
  destruct (Hg el _ _ _ _ H2) as (R & L & S). repeat split; try assumption.
  intros e He. destruct (sameShape_lookup _ _ _ _ He Er) as (el' & H3 & H4).
  destruct (S e He) as [e1 E1]. exists e1.
  unfold bind, deref. rewrite H3, <- (Hsk _ _ H4), E1. reflexivity.
Qed.

Lemma tidy_getType url r : tidy url (getType r).
Proof.
  apply tidy_deref; [intros; apply tidy_ret|].
  intros el el' [= H _ _ _]. rewrite H. reflexivity.
Qed.

Lemma tidy_has_getNumChildren url r : tidy url (has_getNumChildren r).
Proof.
  apply tidy_deref; [intros; apply tidy_ret|].
  intros el el' [= _ H _ _]. rewrite H. reflexivity.
Qed.

Lemma tidy_getNumChildren url r : tidy url (getNumChildren r).
Proof.
  apply tidy_deref.
  - intros el. destruct (el_children el); [apply tidy_ret|apply tidy_throw].
  - intros el el' [= _ H _ _]. rewrite H. reflexivity.
Qed.

Lemma tidy_getChild url r i : tidy url (getChild r i).
Proof.
  apply tidy_deref.
  - intros el. destruct (el_children el) as [cs|]; [|apply tidy_throw].
    destruct (cs !! i); [apply tidy_ret|apply tidy_throw].
  - intros el el' [= _ H _ _]. rewrite H. reflexivity.
Qed.

Lemma tidy_call url ev : linksTo url ev -> tidy url (call ev).
Proof.
  intros Hl d a d1 tr H. unfold call in H.
  destruct (applyEvent ev d) as [d'|] eqn:E; [|discriminate].
  injection H as <- <- <-. split; [|split].
  - simpl. rewrite E. reflexivity.
  - constructor; [assumption|constructor].
  - intros e He. destruct (applyEvent_steady _ _ _ _ _ Hl He E) as [e' E'].
    exists e'. unfold call. rewrite E'. reflexivity.
Qed.

Lemma tidy_forUpTo url budget i bound body :
  tidy url bound -> (forall j, tidy url (body j)) ->
  tidy url (forUpTo budget i bound body).
Proof.
  intros Hb Hbody. revert i. induction budget as [|budget IH]; intros i; simpl.
  - apply tidy_outOfFuel.
  - apply tidy_bind; [assumption|]. intros n.
    destruct (i <? n)%nat; [|apply tidy_ret].
    apply tidy_bind; [apply Hbody|]. intros _. apply IH.
Qed.

Lemma tidy_foldM {A B} url (body : B -> A -> M B) acc l :
  (forall b a, tidy url (body b a)) -> tidy url (foldM body acc l).
Proof.
  intros Hbody. revert acc. induction l as [|x l IH]; intros acc; simpl.
  - apply tidy_ret.
  - apply tidy_bind; [apply Hbody|]. intros acc'. apply IH.
Qed.

End HostFacts.

(** ** The script *)

Module LinkifyFacts.
Import Host Shape Linkify HostFacts.
Local Close Scope string_scope.

(** *** Reads that succeed *)

Lemma bind_read {A B} (m : M A) (k : A -> M B) d a :
  m d = Ret a d [] -> bind m k d = k a d.
Proof. intros H. unfold bind. rewrite H. destruct (k a d); reflexivity. Qed.

Lemma deref_Ret d r el : elements d !! r = Some el -> deref r d = Ret el d [].
Proof. intros H. unfold deref. rewrite H. reflexivity. Qed.

Lemma getType_Ret d r el :
  elements d !! r = Some el -> getType r d = Ret (el_type el) d [].
Proof. intros H. unfold getType. rewrite (bind_read _ _ _ _ (deref_Ret _ _ _ H)). reflexivity. Qed.

Lemma has_getNumChildren_Ret d r el :
  elements d !! r = Some el ->
  has_getNumChildren r d = Ret (bool_decide (is_Some (el_children el))) d [].
Proof.
  intros H. unfold has_getNumChildren.
  rewrite (bind_read _ _ _ _ (deref_Ret _ _ _ H)). reflexivity.
Qed.

Lemma getNumChildren_Ret d r el cs :
  elements d !! r = Some el -> el_children el = Some cs ->
  getNumChildren r d = Ret (length cs) d [].
Proof.
  intros H Hc. unfold getNumChildren.
  rewrite (bind_read _ _ _ _ (deref_Ret _ _ _ H)), Hc. reflexivity.
Qed.

Lemma getChild_Ret d r el cs i c :
  elements d !! r = Some el -> el_children el = Some cs -> cs !! i = Some c ->
  getChild r i d = Ret c d [].
Proof.
  intros H Hc Hi. unfold getChild.
  rewrite (bind_read _ _ _ _ (deref_Ret _ _ _ H)), Hc, Hi. reflexivity.
Qed.

(** *** The script only links *)

Lemma tidy_setLinkOnAllChildren fuel element link :
  tidy link (setLinkOnAllChildren fuel element link).
Proof.
  revert element. induction fuel as [|fuel IH]; intros element; simpl.
  - apply tidy_outOfFuel.
  - apply tidy_bind; [apply tidy_has_getNumChildren|]. intros hasMethod.
    apply tidy_bind.
    + destruct (negb hasMethod); [apply tidy_ret|].
      apply tidy_bind; [apply tidy_getNumChildren|]. intros n. apply tidy_ret.
    + intros [|].
      * apply tidy_call. reflexivity.
      * apply tidy_forUpTo; [apply tidy_getNumChildren|]. intros j.
        apply tidy_bind; [apply tidy_getChild|]. intros child. apply IH.
Qed.

Lemma tidy_insertLink_round fuel link e :
  tidy link (insertLink_round fuel link e).
Proof.
  unfold insertLink_round. apply tidy_bind; [apply tidy_getType|]. intros ty.
  destruct (_ && _).
  - apply tidy_call. reflexivity.
  - apply tidy_setLinkOnAllChildren.
Qed.

Lemma insertLink_selection fuel newText link d res :
  selection d = Some res ->
  insertLink fuel newText link d
  = foldM (fun _ e => insertLink_round fuel link e) tt res d.
Proof.
  intros H. unfold insertLink.
  rewrite (bind_read _ _ d (selection d) eq_refl), H. reflexivity.
Qed.

(** *** Element trees *)

Lemma Tree_induction (P : Tree -> Prop) :
  (forall r kids, Forall P kids -> P (Node r kids)) -> forall t, P t.
Proof.
  intros H. fix IH 1. intros [r kids]. apply H.
  induction kids as [|k kids IHk]; constructor; [apply IH|exact IHk].
Qed.

Lemma sameShape_element d e r el :
  sameShape d e -> elements d !! r = Some el ->
  exists el', elements e !! r = Some el'
              /\ el_children el' = el_children el.
Proof.
  intros Hs Hr. destruct (sameShape_lookup _ _ _ _ Hs Hr) as (el' & H1 & H2).
  exists el'. split; [assumption|]. injection H2 as _ H2 _ _. congruence.
Qed.

Lemma represents_shape d e t :
  sameShape d e -> represents (elements d) t = true ->
  represents (elements e) t = true.
Proof.
  intros Hs. induction t as [r kids IH] using Tree_induction. simpl.
  destruct (elements d !! r) as [el|] eqn:Er; [|discriminate].
  destruct (sameShape_element _ _ _ _ Hs Er) as (el' & -> & Hc).
  unfold isLeafElement. rewrite Hc.
  destruct kids as [|k kids]; [auto|].
  intros H. apply andb_true_iff in H as [H1 H2]. apply andb_true_iff.
  split; [assumption|].
  apply forallb_forall. intros t Ht.
  rewrite Forall_forall in IH. apply IH; [apply list_elem_of_In, Ht|].
  rewrite forallb_forall in H2. apply H2, Ht.
Qed.

Lemma leaves_are_leaves els t r :
  represents els t = true -> r ∈ leaves t ->
  exists el, els !! r = Some el /\ isLeafElement el = true.
Proof.
  induction t as [r0 kids IH] using Tree_induction. simpl.
  destruct (els !! r0) as [el|] eqn:Er; [|discriminate].
  destruct kids as [|k kids].
  - intros H Hin. apply list_elem_of_singleton in Hin as ->. eauto.
  - intros H Hin. apply andb_true_iff in H as [_ H].
    rewrite forallb_forall in H.
    apply list_elem_of_In, in_flat_map in Hin as (t & Ht & Hin).
    rewrite Forall_forall in IH.
    apply (IH t); [apply list_elem_of_In, Ht|apply H, Ht|apply list_elem_of_In, Hin].
Qed.

Lemma composites_have_children els t r :
  represents els t = true -> r ∈ composites t ->
  exists el, els !! r = Some el /\ isLeafElement el = false.
Proof.
  induction t as [r0 kids IH] using Tree_induction. simpl.
  destruct (els !! r0) as [el|] eqn:Er; [|discriminate].
  destruct kids as [|k kids].
  - intros _ Hin. inversion Hin.
  - intros H Hin. apply andb_true_iff in H as [Hc H].
    rewrite forallb_forall in H.
    apply elem_of_cons in Hin as [->|Hin].
    + exists el. split; [assumption|]. apply bool_decide_eq_true in Hc.
      unfold isLeafElement. rewrite Hc. reflexivity.
    + apply list_elem_of_In, in_flat_map in Hin as (t & Ht & Hin).
      rewrite Forall_forall in IH.
      apply (IH t); [apply list_elem_of_In, Ht|apply H, Ht|apply list_elem_of_In, Hin].
Qed.

Lemma size_pos t : (0 < size t)%nat.
Proof. destruct t. simpl. lia. Qed.

Lemma length_le_sizes (ts : list Tree) : (length ts <= list_sum (map size ts))%nat.
Proof.
  induction ts as [|t ts IH]; simpl; [lia|]. pose proof (size_pos t). lia.
Qed.

Lemma setLinkUrl_Ret d r el link :
  elements d !! r = Some el ->
  setLinkUrl r link d = Ret tt (store d r (withLink el link)) [SetLinkUrl r link].
Proof.
  intros H. unfold setLinkUrl, call.
  rewrite (applyEvent_intro (SetLinkUrl r link) d el (withLink el link) H eq_refl).
  reflexivity.
Qed.

(** The loop over the children, from the child after [done]. *)
Lemma forUpTo_children fuel link r
  (IH : forall t d, represents (elements d) t = true -> (size t < fuel)%nat ->
        exists d', setLinkOnAllChildren fuel (root t) link d
                   = Ret tt d' (map (fun l => SetLinkUrl l link) (leaves t))) :
  forall todo done budget d el,
    elements d !! r = Some el ->
    el_children el = Some (map root (done ++ todo)) ->
    forallb (represents (elements d)) todo = true ->
    (list_sum (map size todo) < fuel)%nat ->
    (length todo < budget)%nat ->
    exists d',
      forUpTo budget (length done) (getNumChildren r)
        (fun i => bind (getChild r i)
                    (fun child => setLinkOnAllChildren fuel child link)) d
      = Ret tt d' (map (fun l => SetLinkUrl l link) (flat_map leaves todo)).
Proof.
  induction todo as [|t todo IHtodo]; intros done budget d el Hr Hc Hrep Hsz Hb;
    (destruct budget as [|budget]; [simpl in Hb; lia|]); simpl forUpTo.
  - rewrite (bind_read _ _ _ _ (getNumChildren_Ret _ _ _ _ Hr Hc)).
    rewrite length_map, app_nil_r, Nat.ltb_irrefl. eexists. reflexivity.
  - rewrite (bind_read _ _ _ _ (getNumChildren_Ret _ _ _ _ Hr Hc)).
    rewrite length_map, length_app.
    assert (Hlt : (length done <? length done + length (t :: todo))%nat = true)
      by (apply Nat.ltb_lt; simpl; lia).
    rewrite Hlt.
    simpl in Hrep, Hsz. apply andb_true_iff in Hrep as [Hrt Hrep].
    assert (Hi : map root (done ++ t :: todo) !! length done = Some (root t)).
    { rewrite list_lookup_fmap, lookup_app_r by lia.
      rewrite Nat.sub_diag. reflexivity. }
    destruct (IH t d Hrt ltac:(lia)) as [d1 E1].
    destruct (tidy_setLinkOnAllChildren _ _ _ _ _ _ _ E1) as (R1 & L1 & _).
    pose proof (replay_shape _ _ _ _ L1 R1) as Hs.
    destruct (sameShape_element _ _ _ _ Hs Hr) as (el1 & Hr1 & Hc1).
    destruct (IHtodo (done ++ [t]) budget d1 el1) as [d2 E2].
    + exact Hr1.
    + rewrite Hc1, Hc, <- app_assoc. reflexivity.
    + apply forallb_forall. intros t' Ht'. rewrite forallb_forall in Hrep.
      apply (represents_shape d d1); [exact Hs|apply Hrep, Ht'].
    + lia.
    + simpl in Hb. lia.
    + rewrite length_app in E2. simpl in E2.
      replace (length done + 1)%nat with (S (length done)) in E2 by lia.
      exists d2. simpl flat_map. rewrite map_app.
      eapply bind_Ret; [|exact E2].
      rewrite (bind_read _ _ _ _ (getChild_Ret _ _ _ _ _ _ Hr Hc Hi)). exact E1.
Qed.

(** On a tree the script visits exactly the leaves, in depth-first order,
    and returns as soon as the budget exceeds the size of the tree. *)
Lemma setLinkOnAllChildren_tree fuel :
  forall t d link,
    represents (elements d) t = true -> (size t < fuel)%nat ->
    exists d', setLinkOnAllChildren fuel (root t) link d
               = Ret tt d' (map (fun l => SetLinkUrl l link) (leaves t)).
Proof.
  induction fuel as [|fuel IH]; intros [r kids] d link Hrep Hsz; [lia|].
  simpl in Hrep, Hsz. simpl root.
  destruct (elements d !! r) as [el|] eqn:Er; [|discriminate].
  cbn [setLinkOnAllChildren].
  rewrite (bind_read _ _ _ _ (has_getNumChildren_Ret _ _ _ Er)).
  destruct kids as [|k kids].
  - unfold isLeafElement in Hrep. destruct (el_children el) as [cs|] eqn:Ec.
    + rewrite bool_decide_eq_true_2 by eauto. simpl negb. cbv iota.
      rewrite (bind_read _ _ d true).
      2:{ rewrite (bind_read _ _ _ _ (getNumChildren_Ret _ _ _ _ Er Ec)).
          rewrite Hrep. reflexivity. }
      rewrite (setLinkUrl_Ret _ _ _ _ Er). eexists. reflexivity.
    + rewrite bool_decide_eq_false_2 by (intros [? ?]; discriminate).
      simpl negb. cbv iota. rewrite (bind_read _ _ d true eq_refl).
      rewrite (setLinkUrl_Ret _ _ _ _ Er). eexists. reflexivity.
  - apply andb_true_iff in Hrep as [Hc Hrep]. apply bool_decide_eq_true in Hc.
    rewrite bool_decide_eq_true_2 by eauto. simpl negb. cbv iota.
    rewrite (bind_read _ _ d false).
    2:{ rewrite (bind_read _ _ _ _ (getNumChildren_Ret _ _ _ _ Er Hc)). reflexivity. }
    pose proof (length_le_sizes (k :: kids)) as Hlen.
    destruct (forUpTo_children fuel link r (fun t d => IH t d link)
                (k :: kids) [] fuel d el Er Hc Hrep) as [d' E]; [lia|lia|].
    exists d'. exact E.
Qed.

Lemma bind_OutOfFuel {A B} (m : M A) (k : A -> M B) d :
  m d = OutOfFuel -> bind m k d = OutOfFuel.
Proof. intros H. unfold bind. rewrite H. reflexivity. Qed.

(** Off the trees the budget is what stops the script: on a paragraph
    that is its own child every budget runs out. *)
Lemma setLinkOnAllChildren_cycle fuel link :
  setLinkOnAllChildren fuel 1%nat link Sample.cyclicDoc = OutOfFuel.
Proof.
  induction fuel as [|fuel IH]; [reflexivity|].
  assert (Hel : elements Sample.cyclicDoc !! 1%nat
                = Some (Sample.paragraph [1%nat])) by reflexivity.
  cbn [setLinkOnAllChildren].
  rewrite (bind_read _ _ _ _ (has_getNumChildren_Ret _ _ _ Hel)).
  rewrite (bind_read _ _ Sample.cyclicDoc false).
  2:{ reflexivity. }
  destruct fuel as [|fuel]; [reflexivity|]. cbn [forUpTo].
  rewrite (bind_read _ _ _ _ (getNumChildren_Ret _ _ _ _ Hel eq_refl)).
  simpl Nat.ltb. cbv iota. apply bind_OutOfFuel.
  rewrite (bind_read _ _ _ _ (getChild_Ret _ _ _ _ 0 1%nat Hel eq_refl eq_refl)).
  exact IH.
Qed.

Lemma represents_root els t :
  represents els t = true -> is_Some (els !! root t).
Proof. destruct t as [r kids]. simpl. destruct (els !! r); [eauto|discriminate]. Qed.

Lemma replay_untouched tr d d' r :
  replay tr d = Some d' -> r ∉ map target tr ->
  elements d' !! r = elements d !! r.
Proof.
  revert d. induction tr as [|ev tr IH]; intros d H Hr; simpl in H.
  - injection H as <-. reflexivity.
  - destruct (applyEvent ev d) as [d1|] eqn:E; [|discriminate]. simpl in H.
    simpl in Hr. apply not_elem_of_cons in Hr as [Hne Hr].
    rewrite (IH _ H Hr).
    destruct (applyEvent_inv _ _ _ E) as (el & el' & _ & _ & ->).
    rewrite store_lookup. destruct (decide _); congruence.
Qed.

Lemma paint_all_fixed url t :
  paint (fun _ => true) url t = t -> Forall (fun c => snd c = Some url) t.
Proof.
  intros H. apply Forall_lookup. intros i c Hi.
  assert (Hp := f_equal (fun l => l !! i) H). simpl in Hp.
  rewrite paint_lookup, Hi in Hp. simpl in Hp. injection Hp as Hp.
  rewrite <- Hp. reflexivity.
Qed.

Lemma settled_linked d r url :
  settled d (SetLinkUrl r url) ->
  exists el, elements d !! r = Some el /\ Reading.linked url el.
Proof.
  intros H. apply settled_iff in H as (el & H1 & H2). exists el.
  split; [exact H1|]. simpl in H2. apply (inj Some) in H2. split.
  - rewrite <- H2. reflexivity.
  - apply paint_all_fixed. exact (f_equal el_text H2).
Qed.

(** The loop of [insertLink] over whole range elements that are roots of
    trees. *)
Lemma foldM_whole_elements fuel link :
  forall ts res d,
    forallb (fun e => negb (isPartial e)) res = true ->
    map getElement res = map root ts ->
    forallb (represents (elements d)) ts = true ->
    forallb (fun t => size t <? fuel)%nat ts = true ->
    exists d',
      foldM (fun _ e => insertLink_round fuel link e) tt res d
      = Ret tt d' (map (fun r => SetLinkUrl r link) (flat_map leaves ts)).
Proof.
  induction ts as [|t ts IH]; intros [|e res] d Hp Hm Hrep Hsz;
    try discriminate Hm.
  - exists d. reflexivity.
  - simpl in Hp, Hm, Hrep, Hsz. injection Hm as He Hm.
    apply andb_true_iff in Hp as [Hpe Hp].
    apply andb_true_iff in Hrep as [Hrt Hrep].
    apply andb_true_iff in Hsz as [Hst Hsz].
    apply Nat.ltb_lt in Hst. apply negb_true_iff in Hpe.
    destruct (represents_root _ _ Hrt) as [el Hel].
    destruct (setLinkOnAllChildren_tree fuel t d link Hrt Hst) as [d1 E1].
    assert (Eround : insertLink_round fuel link e d
                     = Ret tt d1 (map (fun r => SetLinkUrl r link) (leaves t))).
    { unfold insertLink_round. rewrite He. cbv zeta.
      rewrite (bind_read _ _ _ _ (getType_Ret _ _ _ Hel)).
      rewrite Hpe, andb_false_r. exact E1. }
    destruct (tidy_insertLink_round _ _ _ _ _ _ _ Eround) as (R1 & L1 & _).
    pose proof (replay_shape _ _ _ _ L1 R1) as Hs.
    destruct (IH res d1 Hp Hm) as [d2 E2]; [|exact Hsz|].
    { apply forallb_forall. intros t' Ht'. rewrite forallb_forall in Hrep.
      apply (represents_shape d d1); [exact Hs|apply Hrep, Ht']. }
    exists d2. simpl flat_map. rewrite map_app. simpl foldM.
    eapply bind_Ret; eassumption.
Qed.

Lemma leaves_not_composites els ts r :
  forallb (represents els) ts = true ->
  r ∈ flat_map leaves ts -> r ∈ flat_map composites ts -> False.
Proof.
  intros Hrep Hl Hc. rewrite forallb_forall in Hrep.
  apply list_elem_of_In, in_flat_map in Hl as (t & Ht & Hl).
  apply list_elem_of_In, in_flat_map in Hc as (t' & Ht' & Hc).
  destruct (leaves_are_leaves els t r (Hrep _ Ht)) as (el & H1 & H2);
    [apply list_elem_of_In, Hl|].
  destruct (composites_have_children els t' r (Hrep _ Ht')) as (el' & H3 & H4);
    [apply list_elem_of_In, Hc|].
  congruence.
Qed.

End LinkifyFacts.

(** ** The extraction loop and the faults *)

Module ExtractionFacts.
Import Host Shape Linkify HostFacts LinkifyFacts Reading.
Local Close Scope string_scope.

Lemma has_editAsText_Ret d r el :
  elements d !! r = Some el -> has_editAsText r d = Ret (el_editAsText el) d [].
Proof.
  intros H. unfold has_editAsText.
  rewrite (bind_read _ _ _ _ (deref_Ret _ _ _ H)). reflexivity.
Qed.

Lemma getText_Ret d r el :
  elements d !! r = Some el -> getText r d = Ret (textOf el) d [].
Proof.
  intros H. unfold getText.
  rewrite (bind_read _ _ _ _ (deref_Ret _ _ _ H)). reflexivity.
Qed.

Lemma deref_Raise d r : elements d !! r = None -> deref r d = Raise HostError d [].
Proof. intros H. unfold deref. rewrite H. reflexivity. Qed.

Lemma bind_Raise {A B} (m : M A) (k : A -> M B) d x d1 tr :
  m d = Raise x d1 tr -> bind m k d = Raise x d1 tr.
Proof. intros H. unfold bind. rewrite H. reflexivity. Qed.

(** One round of the extraction loop. *)
Lemma getSelectedText_round_known text e d el :
  elements d !! getElement e = Some el ->
  getSelectedText_round text e d = Ret (text ++ pushed el e) d [].
Proof.
  intros H. unfold getSelectedText_round, pushed.
  destruct (isPartial e).
  - rewrite (bind_read _ _ _ _ (getText_Ret _ _ _ H)). reflexivity.
  - rewrite (bind_read _ _ _ _ (has_editAsText_Ret _ _ _ H)).
    destruct (el_editAsText el); simpl; [|rewrite app_nil_r; reflexivity].
    rewrite (bind_read _ _ _ _ (getText_Ret _ _ _ H)).
    destruct (negb _); [reflexivity|rewrite app_nil_r; reflexivity].
Qed.

Lemma getSelectedText_round_unknown text e d :
  elements d !! getElement e = None ->
  getSelectedText_round text e d = Raise HostError d [].
Proof.
  intros H. unfold getSelectedText_round.
  destruct (isPartial e).
  - apply bind_Raise. unfold getText. apply bind_Raise, deref_Raise, H.
  - apply bind_Raise. unfold has_editAsText. apply bind_Raise, deref_Raise, H.
Qed.

(** The whole loop. *)
Lemma getSelectedText_loop res :
  forall text d,
    foldM getSelectedText_round text res d
    = if forallb (resolves d) res
      then Ret (text ++ flat_map (pushedIn d) res) d []
      else Raise HostError d [].
Proof.
  induction res as [|e res IH]; intros text d; simpl.
  - rewrite app_nil_r. reflexivity.
  - unfold resolves at 1, pushedIn at 1.
    destruct (elements d !! getElement e) as [el|] eqn:E.
    + rewrite bool_decide_eq_true_2 by eauto. simpl.
      rewrite (bind_read _ _ _ _ (getSelectedText_round_known text e d el E)).
      rewrite IH, <- app_assoc. reflexivity.
    + rewrite bool_decide_eq_false_2 by (intros [? ?]; discriminate). simpl.
      apply bind_Raise, getSelectedText_round_unknown, E.
Qed.

Lemma getSelectedText_unfold d :
  getSelectedText d
  = match selection d with
    | None => Raise (Thrown noTextSelected) d []
    | Some res =>
        if forallb (resolves d) res then
          match flat_map (pushedIn d) res with
          | [] => Raise (Thrown noTextSelected) d []
          | text => Ret text d []
          end
        else Raise HostError d []
    end.
Proof.
  unfold getSelectedText. rewrite (bind_read _ _ d (selection d) eq_refl).
  destruct (selection d) as [res|]; [|reflexivity].
  unfold bind. rewrite getSelectedText_loop.
  destruct (forallb (resolves d) res); [|reflexivity]. simpl.
  destruct (flat_map (pushedIn d) res); reflexivity.
Qed.

Lemma yieldsNoText_iff d e :
  yieldsNoText d e = true <-> resolves d e = true /\ pushedIn d e = [].
Proof.
  unfold yieldsNoText, resolves, pushedIn, pushed.
  destruct (elements d !! getElement e) as [el|].
  - rewrite bool_decide_eq_true_2 by eauto.
    destruct (isPartial e), (el_editAsText el), (String.eqb (textOf el) "");
      simpl; intuition discriminate.
  - rewrite bool_decide_eq_false_2 by (intros [? ?]; discriminate).
    intuition discriminate.
Qed.

Lemma all_yieldNoText_iff d res :
  forallb (yieldsNoText d) res = true
  <-> forallb (resolves d) res = true /\ flat_map (pushedIn d) res = [].
Proof.
  induction res as [|e res IH]; simpl; [intuition|].
  rewrite !andb_true_iff, yieldsNoText_iff, IH.
  split.
  - intros [[H1 H2] [H3 H4]]. rewrite H2, H4. auto.
  - intros [[H1 H2] H3]. apply app_eq_nil in H3 as [H3 H4]. auto.
Qed.

(** *** Computations that raise no thrown string *)

Lemma quiet_ret {A} (a : A) : quiet (ret a).
Proof. intros d e d1 tr H. discriminate H. Qed.

Lemma quiet_outOfFuel {A} : quiet (@outOfFuel A).
Proof. intros d e d1 tr H. discriminate H. Qed.

Lemma quiet_throw {A} x : x = HostError \/ x = TypeError -> quiet (@throw A x).
Proof. intros Hx d e d1 tr [= <- _ _]. exact Hx. Qed.

Lemma quiet_bind {A B} (m : M A) (k : A -> M B) :
  quiet m -> (forall a, quiet (k a)) -> quiet (bind m k).
Proof.
  intros Hm Hk d e d1 tr H.
  destruct (bind_Raise_inv _ _ _ _ _ _ H) as [H1|(a & d0 & tr1 & tr2 & _ & H2 & _)].
  - eapply Hm, H1.
  - eapply Hk, H2.
Qed.

Lemma quiet_deref r : quiet (deref r).
Proof.
  intros d e d1 tr H. unfold deref in H.
  destruct (elements d !! r); [discriminate|]. injection H as <- _ _. auto.
Qed.

Lemma quiet_call ev : quiet (call ev).
Proof.
  intros d e d1 tr H. unfold call in H.
  destruct (applyEvent ev d); [discriminate|]. injection H as <- _ _. auto.
Qed.

Lemma quiet_getNumChildren r : quiet (getNumChildren r).
Proof.
  apply quiet_bind; [apply quiet_deref|]. intros el.
  destruct (el_children el); [apply quiet_ret|apply quiet_throw; auto].
Qed.

Lemma quiet_getChild r i : quiet (getChild r i).
Proof.
  apply quiet_bind; [apply quiet_deref|]. intros el.
  destruct (el_children el) as [cs|]; [|apply quiet_throw; auto].
  destruct (cs !! i); [apply quiet_ret|apply quiet_throw; auto].
Qed.

Lemma quiet_forUpTo budget i bound body :
  quiet bound -> (forall j, quiet (body j)) ->
  quiet (forUpTo budget i bound body).
Proof.
  intros Hb Hbody. revert i. induction budget as [|budget IH]; intros i; simpl.
  - apply quiet_outOfFuel.
  - apply quiet_bind; [assumption|]. intros n.
    destruct (i <? n)%nat; [|apply quiet_ret].
    apply quiet_bind; [apply Hbody|]. intros _. apply IH.
Qed.

Lemma quiet_foldM {A B} (body : B -> A -> M B) acc l :
  (forall b a, quiet (body b a)) -> quiet (foldM body acc l).
Proof.
  intros Hbody. revert acc. induction l as [|x l IH]; intros acc; simpl.
  - apply quiet_ret.
  - apply quiet_bind; [apply Hbody|]. intros acc'. apply IH.
Qed.

Lemma quiet_setLinkOnAllChildren fuel element link :
  quiet (setLinkOnAllChildren fuel element link).
Proof.
  revert element. induction fuel as [|fuel IH]; intros element; simpl.
  - apply quiet_outOfFuel.
  - apply quiet_bind.
    { apply quiet_bind; [apply quiet_deref|]. intros el. apply quiet_ret. }
    intros hasMethod. apply quiet_bind.
    + destruct (negb hasMethod); [apply quiet_ret|].
      apply quiet_bind; [apply quiet_getNumChildren|]. intros n. apply quiet_ret.
    + intros [|].
      * apply quiet_call.
      * apply quiet_forUpTo; [apply quiet_getNumChildren|]. intros j.
        apply quiet_bind; [apply quiet_getChild|]. intros child. apply IH.
Qed.

Lemma quiet_insertLink_round fuel link e :
  quiet (insertLink_round fuel link e).
Proof.
  unfold insertLink_round. apply quiet_bind.
  { apply quiet_bind; [apply quiet_deref|]. intros el. apply quiet_ret. }
  intros ty. destruct (_ && _).
  - apply quiet_call.
  - apply quiet_setLinkOnAllChildren.
Qed.

Lemma quiet_insertTextLinked p s url : quiet (insertTextLinked p s url).
Proof.
  unfold insertTextLinked. apply quiet_bind; [apply quiet_call|].
  intros _. apply quiet_call.
Qed.

End ExtractionFacts.

(** ** The resolver and the cursor *)

Module ResolverFacts.
Import Host Shape Linkify JsStringFacts HostFacts LinkifyFacts Reading.
Local Open Scope string_scope.

Lemma append_nil_r (s : string) : s ++ "" = s.
Proof. induction s as [|c s IH]; push_app; [reflexivity|]. rewrite IH. reflexivity. Qed.

Lemma append_not_empty (s t : string) : t <> "" -> s ++ t <> "".
Proof. destruct s; push_app; [auto|discriminate]. Qed.

Lemma append_not_empty_l (s t : string) : s <> "" -> s ++ t <> "".
Proof. destruct s; push_app; [congruence|discriminate]. Qed.

Lemma radioInput_not_empty file : radioInput file <> "".
Proof. unfold radioInput, radioOpen. push_app. discriminate. Qed.

(** The loop of [createDriveUrls] once the list has been opened. *)
Lemma createDriveUrls_rounds files :
  forall filesList u,
    filesList <> "" ->
    fold_left createDriveUrls_round files (filesList, u)
    = (filesList ++ fold_right append "" (map radioInput files),
       from_option Some u (getUrl <$> last files)).
Proof.
  induction files as [|f files IH]; intros filesList u Hne; simpl.
  - rewrite append_nil_r. reflexivity.
  - unfold createDriveUrls_round at 2. simpl fst.
    destruct (String.eqb_spec filesList ""); [contradiction|].
    rewrite IH by (apply append_not_empty, radioInput_not_empty).
    rewrite append_assoc. f_equal.
    rewrite last_cons. destruct (last files); reflexivity.
Qed.

Lemma createDriveUrls_loop f files :
  fold_left createDriveUrls_round (f :: files) ("", None)
  = (formOpen ++ fold_right append "" (map radioInput (f :: files)),
     getUrl <$> last (f :: files)).
Proof.
  simpl fold_left. unfold createDriveUrls_round at 2. simpl fst.
  rewrite createDriveUrls_rounds.
  2:{ apply append_not_empty, radioInput_not_empty. }
  rewrite append_assoc. f_equal.
  rewrite last_cons. destruct (last files); reflexivity.
Qed.

(** *** Counting the radio inputs in the page *)

Lemma prefix_other (c c' : ascii) (p s : string) :
  Ascii.eqb c c' = false -> String.prefix (String c p) (String c' s) = false.
Proof.
  intros H. simpl. destruct (Ascii.ascii_dec c c') as [->|]; [|reflexivity].
  rewrite Ascii.eqb_refl in H. discriminate.
Qed.

Lemma occurrences_skip (c : ascii) (p s t : string) :
  JsString.lacks c s = true ->
  JsString.occurrences (String c p) (s ++ t) = JsString.occurrences (String c p) t.
Proof.
  induction s as [|c' s IH]; push_app; [reflexivity|]. simpl JsString.lacks.
  intros H. apply andb_true_iff in H as [H1 H2]. apply negb_true_iff in H1.
  cbn [JsString.occurrences]. rewrite (prefix_other _ _ _ _ H1), IH by assumption.
  reflexivity.
Qed.

Lemma occurrences_self (c : ascii) (p t : string) :
  JsString.lacks c p = true ->
  JsString.occurrences (String c p) (String c p ++ t)
  = S (JsString.occurrences (String c p) t).
Proof.
  intros H. pose proof (prefix_app (String c p) t) as Hp. revert Hp.
  push_app. intros Hp. cbn [JsString.occurrences]. rewrite Hp.
  rewrite occurrences_skip by assumption. reflexivity.
Qed.

Lemma occurrences_radioInput file t :
  JsString.lacks "<" (getUrl file) = true -> JsString.lacks "<" (getName file) = true ->
  JsString.occurrences radioOpen (radioInput file ++ t)
  = S (JsString.occurrences radioOpen t).
Proof.
  intros Hu Hn. unfold radioInput. rewrite !append_assoc.
  unfold radioOpen. rewrite occurrences_self by reflexivity.
  rewrite occurrences_skip by assumption.
  unfold radioChecked. rewrite occurrences_skip by reflexivity.
  rewrite occurrences_skip by assumption.
  reflexivity.
Qed.

Lemma occurrences_radioInputs files t :
  forallb (fun x => JsString.lacks "<" (getUrl x) && JsString.lacks "<" (getName x)) files = true ->
  JsString.occurrences radioOpen (fold_right append "" (map radioInput files) ++ t)
  = (length files + JsString.occurrences radioOpen t)%nat.
Proof.
  induction files as [|f files IH]; cbn [fold_right map length forallb];
    intros H; [reflexivity|].
  apply andb_true_iff in H as [H1 H2]. apply andb_true_iff in H1 as [Hu Hn].
  rewrite append_assoc, occurrences_radioInput, IH by assumption. reflexivity.
Qed.

Lemma occurrences_form files :
  forallb (fun x => JsString.lacks "<" (getUrl x) && JsString.lacks "<" (getName x)) files = true ->
  JsString.occurrences radioOpen
    (formOpen ++ fold_right append "" (map radioInput files) ++ "</form>")
  = length files.
Proof.
  intros H.
  change (JsString.occurrences radioOpen
            (fold_right append "" (map radioInput files) ++ "</form>")
          = length files).
  rewrite occurrences_radioInputs by assumption.
  change (JsString.occurrences radioOpen "</form>") with 0%nat. lia.
Qed.
(** *** Characters around a cursor *)

Lemma get_Some (s : string) (n : nat) :
  (n < String.length s)%nat -> exists c, String.get n s = Some c.
Proof.
  revert n. induction s as [|c s IH]; intros n H; simpl in H; [lia|].
  destruct n as [|n]; simpl; [eauto|]. apply IH. lia.
Qed.

Lemma get_None (s : string) (n : nat) :
  (String.length s <= n)%nat -> String.get n s = None.
Proof.
  revert n. induction s as [|c s IH]; intros n H; simpl in H; [destruct n; reflexivity|].
  destruct n as [|n]; simpl; [lia|]. apply IH. lia.
Qed.

Lemma charAt_get (s : string) (z : Z) :
  (0 <= z)%Z ->
  JsString.charAt s z
  = match String.get (Z.to_nat z) s with Some c => String c "" | None => "" end.
Proof.
  intros H. unfold JsString.charAt.
  destruct (z <? 0)%Z eqn:E; [apply Z.ltb_lt in E; lia|reflexivity].
Qed.

Lemma notSpace_wantsSpace (o : option ascii) :
  negb (String.eqb match o with Some c => String c "" | None => "" end " ")
  = match o with Some c => wantsSpace (Some c) | None => true end.
Proof.
  destruct o as [c|]; [|reflexivity]. simpl.
  destruct (Ascii.eqb c " "); reflexivity.
Qed.

Lemma pad_both (b a : bool) (newText : string) :
  (if a then (if b then " " ++ newText else newText) ++ " "
   else if b then " " ++ newText else newText)
  = pad b ++ newText ++ pad a.
Proof.
  destruct a, b; unfold pad; push_app; rewrite ?append_nil_r; reflexivity.
Qed.

Lemma padded_tests (s newText : string) (off : Z) :
  padded s off newText
  = if (if (off <? Z.of_nat (String.length s))%Z
        then negb (String.eqb (JsString.charAt s off) " ") else false)
    then (if (if (off >? 0)%Z
              then negb (String.eqb (JsString.charAt s (off - 1)) " ")
              else false)
          then " " ++ newText else newText) ++ " "
    else if (if (off >? 0)%Z
             then negb (String.eqb (JsString.charAt s (off - 1)) " ")
             else false)
         then " " ++ newText else newText.
Proof.
  unfold padded, JsString.length.
  destruct (off >? 0)%Z, (off <? Z.of_nat (String.length s))%Z;
    repeat match goal with |- context [negb ?x] => destruct (negb x) end;
    reflexivity.
Qed.

Lemma padded_spec (s newText : string) (off : Z) :
  (0 <= off <= Z.of_nat (String.length s))%Z ->
  padded s off newText
  = pad (wantsSpace (charBefore s (Z.to_nat off))) ++ newText
    ++ pad (wantsSpace (charAfter s (Z.to_nat off))).
Proof.
  intros H. rewrite padded_tests, <- pad_both. unfold charBefore, charAfter.
  assert (Hafter :
    (if (off <? Z.of_nat (String.length s))%Z
     then negb (String.eqb (JsString.charAt s off) " ") else false)
    = wantsSpace (String.get (Z.to_nat off) s)).
  { rewrite charAt_get by lia.
    destruct (off <? Z.of_nat (String.length s))%Z eqn:E.
    - apply Z.ltb_lt in E. destruct (get_Some s (Z.to_nat off)) as [c Hc]; [lia|].
      rewrite Hc. apply (notSpace_wantsSpace (Some c)).
    - apply Z.ltb_ge in E. rewrite get_None by lia. reflexivity. }
  assert (Hbefore :
    (if (off >? 0)%Z
     then negb (String.eqb (JsString.charAt s (off - 1)) " ") else false)
    = wantsSpace match Z.to_nat off with O => None | S k => String.get k s end).
  { destruct (off >? 0)%Z eqn:E.
    - apply Z.gtb_lt in E. rewrite charAt_get by lia.
      replace (Z.to_nat off) with (S (Z.to_nat (off - 1))) by lia.
      destruct (get_Some s (Z.to_nat (off - 1))) as [c Hc]; [lia|].
      rewrite Hc. apply (notSpace_wantsSpace (Some c)).
    - assert (off = 0%Z) as -> by lia. reflexivity. }
  rewrite Hafter, Hbefore. reflexivity.
Qed.

Lemma textOf_length el : String.length (textOf el) = length (el_text el).
Proof.
  unfold textOf. rewrite <- (length_map fst (el_text el)).
  induction (map fst (el_text el)) as [|c l IH]; simpl; congruence.
Qed.

Local Close Scope string_scope.

Lemma paint_span url (pre mid post : list (ascii * option string)) :
  paint (inSpan (length pre) (length mid)) url (pre ++ mid ++ post)
  = pre ++ map (fun c => (fst c, Some url)) mid ++ post.
Proof.
  unfold paint. rewrite !imap_app. f_equal; [|f_equal].
  - rewrite <- (list_fmap_id pre) at 2. rewrite <- imap_const.
    apply imap_ext. intros i c Hi. apply lookup_lt_Some in Hi.
    unfold inSpan. replace (length pre <=? i)%nat with false; [reflexivity|].
    symmetry. apply Nat.leb_gt. exact Hi.
  - rewrite <- imap_const. apply imap_ext. intros i c Hi.
    apply lookup_lt_Some in Hi. unfold inSpan. simpl.
    replace (length pre <=? length pre + i)%nat with true
      by (symmetry; apply Nat.leb_le; lia).
    replace (length pre + i <? length pre + length mid)%nat with true
      by (symmetry; apply Nat.ltb_lt; lia).
    reflexivity.
  - rewrite <- (list_fmap_id post) at 2. rewrite <- imap_const.
    apply imap_ext. intros i c Hi. unfold inSpan. simpl.
    replace (length pre + (length mid + i) <? length pre + length mid)%nat
      with false by (symmetry; apply Nat.ltb_ge; lia).
    rewrite andb_false_r. reflexivity.
Qed.

Lemma plain_length s : length (plain s) = String.length s.
Proof.
  unfold plain. rewrite length_map.
  induction s as [|c s IH]; simpl; congruence.
Qed.

Lemma store_store d r el el' : store (store d r el) r el' = store d r el'.
Proof. unfold store. simpl. rewrite insert_insert_eq. reflexivity. Qed.

(** [insertLink] at a cursor inside the text [el]. *)
Lemma insertLink_at_cursor fuel newText link d p el :
  selection d = None -> cursor d = Some p ->
  elements d !! getSurroundingText p = Some el ->
  (0 <= getSurroundingTextOffset p <= Z.of_nat (length (el_text el)))%Z ->
  let r := getSurroundingText p in
  let o := Z.to_nat (getSurroundingTextOffset p) in
  let inserted := padded (textOf el) (getSurroundingTextOffset p) newText in
  insertLink fuel newText link d
  = Ret tt
      (store d r
         (withText el
            (take o (el_text el)
             ++ map (fun c => (c, Some link)) (list_ascii_of_string inserted)
             ++ drop o (el_text el))))
      [InsertText r (getSurroundingTextOffset p) inserted;
       SetLinkUrlInserted r o (String.length inserted) link].
Proof.
  intros Hsel Hcur Hel Hoff r o inserted. unfold insertLink.
  rewrite (bind_read _ _ d (selection d) eq_refl), Hsel.
  rewrite (bind_read _ _ d (cursor d) eq_refl), Hcur.
  rewrite (bind_read _ _ _ _ (ExtractionFacts.getText_Ret _ _ _ Hel)).
  fold inserted. unfold insertTextLinked. fold r o.
  set (el1 := withText el (take o (el_text el) ++ plain inserted
                           ++ drop o (el_text el))).
  assert (E1 : applyEvent (InsertText r (getSurroundingTextOffset p) inserted) d
               = Some (store d r el1)).
  { apply (applyEvent_intro (InsertText r _ inserted) d el el1 Hel).
    simpl. replace (_ && _)%bool with true; [reflexivity|].
    symmetry. apply andb_true_iff. split; [apply Z.leb_le|apply Z.leb_le]; lia. }
  assert (E2 : applyEvent (SetLinkUrlInserted r o (String.length inserted) link)
                 (store d r el1)
               = Some (store d r
                   (withText el
                      (take o (el_text el)
                       ++ map (fun c => (c, Some link)) (list_ascii_of_string inserted)
                       ++ drop o (el_text el))))).
  { rewrite (applyEvent_intro (SetLinkUrlInserted r o _ link) (store d r el1) el1
               (withText el1 (paint (inSpan o (String.length inserted)) link (el_text el1)))).
    - simpl target. rewrite store_store. f_equal. f_equal.
      unfold el1, withText. simpl. f_equal.
      rewrite <- (plain_length inserted).
      rewrite <- (length_take_le (el_text el) o) at 1 by lia.
      rewrite paint_span. unfold plain. rewrite map_map. reflexivity.
    - simpl target. rewrite store_lookup. destruct (decide (r = r)); congruence.
    - reflexivity. }
  unfold bind, call. rewrite E1, E2. reflexivity.
Qed.

End ResolverFacts.

(** * The claims *)

Import Host Shape Linkify Reading.
Import JsStringFacts HostFacts LinkifyFacts ExtractionFacts ResolverFacts.

(** ** C1: the reference lookup *)

(** C1 as worded fails: for the word Cat and a fetched body that holds an
    anchor with an href attribute, the page still holds the text of
    [hrefAttr], as the tail of the [nohrefAttr] written over it. *)
Lemma C1_page_still_holds_href :
  ~ pageWithoutHref Sample.anchorPage ["Cat"].
Proof. unfold pageWithoutHref. vm_compute. discriminate. Qed.

(** C1, amended: for the word Cat and no language the lookup returns the
    url http://en.wikipedia.org/wiki/Cat, the page is the fetched body
    with every [hrefAttr] replaced by [nohrefAttr], and wherever
    [hrefAttr] occurs in the page it is preceded by the letters no, that
    is, it is part of a [nohrefAttr]. *)
Theorem C1_reference_lookup_disables_links (sv : Services) :
  exists r,
    createWikiUrl sv ["Cat"] None = inr r
    /\ word r = Some "Cat"
    /\ url r = Some "http://en.wikipedia.org/wiki/Cat"
    /\ page r = JsString.replaceAll hrefAttr nohrefAttr
                  (fetch sv "http://en.wikipedia.org/wiki/Cat")
    /\ forall pre post,
         page r = pre ++ hrefAttr ++ post -> exists pre', pre = pre' ++ "no".
Proof.
  eexists. split; [reflexivity|]. simpl.
  split; [reflexivity|]. split; [reflexivity|]. split; [reflexivity|].
  intros pre post H. eapply unlink_occurrence; [reflexivity|exact H].
Qed.

(** ** C2: applying the same link again *)

(** C2 as worded fails at a cursor: in the empty text with the cursor at
    offset 0 the first call inserts the text and the second call inserts
    it once more, so the document changes again. *)
Lemma C2_cursor_insertion_repeats :
  ~ reapplyingChangesNothing 1 "a" "L" (Sample.cursorDoc "" 0).
Proof.
  intros H.
  destruct (insertLink 1 "a" "L" (Sample.cursorDoc "" 0)) as [[] d1 tr1| |] eqn:E;
    try discriminate E.
  destruct (H d1 tr1 E) as [tr2 H2].
  vm_compute in E. injection E as <- <-.
  apply (f_equal (fun o => match o with
                           | Ret _ d _ => textOf <$> (elements d !! 1%nat)
                           | _ => None
                           end)) in H2.
  vm_compute in H2. discriminate H2.
Qed.

(** C2, amended: when the document has a selection and [insertLink]
    returns, a second call with the same arguments makes the same host
    calls and leaves the document as the first call left it. *)
Theorem C2_relinking_a_selection_changes_nothing
    (fuel : nat) (newText link : string) (d d1 : Document) (tr : list Event) :
  is_Some (selection d) ->
  insertLink fuel newText link d = Ret tt d1 tr ->
  insertLink fuel newText link d1 = Ret tt d1 tr.
Proof.
  intros [res Hsel] H. rewrite (insertLink_selection _ _ _ _ _ Hsel) in H.
  pose proof (tidy_foldM link (fun _ e => insertLink_round fuel link e) tt res
                (fun _ e => tidy_insertLink_round fuel link e)) as T.
  destruct (T _ _ _ _ H) as (R & L & S).
  pose proof (replay_shape _ _ _ _ L R) as Hs.
  destruct (S d1 Hs) as [e1 E1].
  destruct (T _ _ _ _ E1) as (R1 & _ & _).
  rewrite (replay_idem _ _ _ _ L R) in R1. injection R1 as <-.
  rewrite (insertLink_selection _ _ _ _ res); [exact E1|].
  destruct Hs as (Hs & _). congruence.
Qed.

Lemma C2_relinking_a_selection_witness :
  exists d1 tr,
    is_Some (selection Sample.nestedDoc)
    /\ insertLink 7 "w" "L" Sample.nestedDoc = Ret tt d1 tr
    /\ insertLink 7 "w" "L" d1 = Ret tt d1 tr.
Proof.
  assert (H : exists d1 tr, insertLink 7 "w" "L" Sample.nestedDoc = Ret tt d1 tr)
    by (vm_compute; eauto).
  destruct H as (d1 & tr & H). exists d1, tr.
  assert (Hs : is_Some (selection Sample.nestedDoc)) by (simpl; eauto).
  split; [exact Hs|]. split; [exact H|].
  exact (C2_relinking_a_selection_changes_nothing 7 "w" "L" _ _ _ Hs H).
Defined.

(** ** C3: the file search *)

(** C3 as worded fails: with two matches the page marks both radio inputs
    [checked=true], not the last one only. *)
Lemma C3_every_candidate_is_marked_checked :
  ~ oneChecked Sample.twoFiles ["notes"].
Proof. unfold oneChecked. vm_compute. discriminate. Qed.

(** C3, amended: for a search with N matches, N at least 1, the page is
    the form opening, one radio input per match in the order of the
    enumeration, every one of them written with [checked=true]
    ([radioInput]), and the form closing; the returned url is the URL of
    the last enumerated match; and when no file name or URL holds the
    character [<], the text of [radioOpen] occurs in the page exactly N
    times. *)
Theorem C3_file_search_lists_every_match
    (sv : Services) (text : list string) (f : File) (files : list File) :
  searchFiles sv ("title contains '" ++ toString (text !! 0%nat) ++ "'")
  = f :: files ->
  page (createDriveUrls sv text)
  = formOpen ++ fold_right append "" (map radioInput (f :: files)) ++ "</form>"
  /\ url (createDriveUrls sv text) = getUrl <$> last (f :: files)
  /\ (forallb (fun x => JsString.lacks "<" (getUrl x)
                        && JsString.lacks "<" (getName x)) (f :: files) = true ->
      JsString.occurrences radioOpen (page (createDriveUrls sv text))
      = length (f :: files)).
Proof.
  intros H.
  assert (Hp : page (createDriveUrls sv text)
               = formOpen ++ fold_right append "" (map radioInput (f :: files))
                 ++ "</form>").
  { unfold createDriveUrls. rewrite H, createDriveUrls_loop. cbn [page fst].
    rewrite append_assoc. reflexivity. }
  split; [exact Hp|]. split.
  - unfold createDriveUrls. rewrite H, createDriveUrls_loop. reflexivity.
  - intros Hl. rewrite Hp. apply occurrences_form. exact Hl.
Qed.

Lemma C3_file_search_witness :
  page (createDriveUrls Sample.twoFiles ["notes"])
  = formOpen
    ++ fold_right append ""
         (map radioInput [mkFile "notes" "u1"; mkFile "plan" "u2"])
    ++ "</form>"
  /\ url (createDriveUrls Sample.twoFiles ["notes"]) = Some "u2"
  /\ JsString.occurrences radioOpen
       (page (createDriveUrls Sample.twoFiles ["notes"])) = 2%nat.
Proof.
  destruct (C3_file_search_lists_every_match Sample.twoFiles ["notes"]
              (mkFile "notes" "u1") [mkFile "plan" "u2"] eq_refl)
    as (H1 & H2 & H3).
  split; [exact H1|]. split; [exact H2|]. exact (H3 eq_refl).
Defined.

(** ** C4: linking a whole element *)

(** C4: when the selection consists of whole range elements whose
    elements are roots of finite element trees, [insertLink] calls
    [setLinkUrl] on exactly the leaves of the trees, in depth-first order
    with the children by index; afterwards every leaf and all of its text
    carry the link, and every node with children is as it was. *)
Theorem C4_whole_elements_link_exactly_the_leaves
    (fuel : nat) (newText link : string) (d : Document)
    (res : list RangeElement) (ts : list Tree) :
  selection d = Some res ->
  forallb (fun e => negb (isPartial e)) res = true ->
  map getElement res = map root ts ->
  forallb (represents (elements d)) ts = true ->
  forallb (fun t => size t <? fuel)%nat ts = true ->
  exists d',
    insertLink fuel newText link d
    = Ret tt d' (map (fun r => SetLinkUrl r link) (flat_map leaves ts))
    /\ (forall r, r ∈ flat_map leaves ts ->
        exists el, elements d' !! r = Some el /\ linked link el)
    /\ (forall r, r ∈ flat_map composites ts ->
        elements d' !! r = elements d !! r).
Proof.
  intros Hsel Hp Hm Hrep Hsz.
  destruct (foldM_whole_elements fuel link ts res d Hp Hm Hrep Hsz) as [d' E].
  exists d'. rewrite (insertLink_selection _ _ _ _ _ Hsel).
  split; [exact E|].
  pose proof (tidy_foldM link (fun _ e => insertLink_round fuel link e) tt res
                (fun _ e => tidy_insertLink_round fuel link e)) as T.
  destruct (T _ _ _ _ E) as (R & L & _). split.
  - intros r Hr. apply settled_linked.
    destruct (replay_settles _ _ _ _ L R) as [_ Hall].
    rewrite Forall_forall in Hall. apply Hall.
    apply list_elem_of_In.
    apply (in_map (fun r => SetLinkUrl r link)), list_elem_of_In, Hr.
  - intros r Hr. apply (replay_untouched _ _ _ _ R).
    rewrite map_map. simpl. rewrite map_id. intros Hl.
    exact (leaves_not_composites _ _ _ Hrep Hl Hr).
Qed.

Lemma C4_whole_elements_witness :
  exists d',
    insertLink 7 "w" "L" Sample.nestedDoc
    = Ret tt d' [SetLinkUrl 2%nat "L"; SetLinkUrl 5%nat "L";
                 SetLinkUrl 6%nat "L"; SetLinkUrl 4%nat "L"]
    /\ (forall r, r ∈ [2; 5; 6; 4]%nat ->
        exists el, elements d' !! r = Some el /\ linked "L" el)
    /\ (forall r, r ∈ [1; 3]%nat ->
        elements d' !! r = elements Sample.nestedDoc !! r).
Proof.
  exact (C4_whole_elements_link_exactly_the_leaves 7 "w" "L" Sample.nestedDoc
           [Sample.whole 1%nat] [Sample.nestedTree]
           eq_refl eq_refl eq_refl eq_refl eq_refl).
Defined.

(** ** C5: a partial range element *)

(** C5: when the selection holds a partial range element over the text
    [el] (and the host knows every selected element), [getSelectedText]
    returns, and between what the range elements before and after it
    contribute stands the slice of the text from the start offset to
    the end offset inclusive: for offsets inside the text, its characters
    are those at the offsets start to end.  Offsets 1 and 3 on hello
    give ell. *)
Theorem C5_partial_element_yields_the_inclusive_slice
    (d : Document) (before after : list RangeElement) (e : RangeElement)
    (el : Element) :
  selection d = Some (before ++ e :: after)%list ->
  forallb (resolves d) (before ++ e :: after)%list = true ->
  isPartial e = true ->
  elements d !! getElement e = Some el ->
  let slice :=
    JsString.substring (textOf el) (getStartOffset e)
      (getEndOffsetInclusive e + 1) in
  getSelectedText d
  = Ret (flat_map (pushedIn d) before ++ [slice]
         ++ flat_map (pushedIn d) after)%list d []
  /\ (forall lo hi : nat,
        getStartOffset e = Z.of_nat lo -> getEndOffsetInclusive e = Z.of_nat hi ->
        (lo <= hi < String.length (textOf el))%nat ->
        forall k,
          String.get k slice
          = if (k <=? hi - lo)%nat then String.get (lo + k) (textOf el) else None)
  /\ getSelectedText Sample.helloDoc = Ret ["ell"] Sample.helloDoc [].
Proof.
  intros Hsel Hres Hpart Hel slice. split; [|split; [|reflexivity]].
  - rewrite getSelectedText_unfold, Hsel, Hres.
    rewrite flat_map_app. cbn [flat_map]. unfold pushedIn at 2.
    rewrite Hel. unfold pushed. rewrite Hpart. fold slice.
    destruct (flat_map (pushedIn d) before); reflexivity.
  - intros lo hi Hlo Hhi Hin k. unfold slice, JsString.substring, JsString.clamp.
    unfold JsString.length. rewrite Hlo, Hhi.
    replace (Z.to_nat (Z.min (Z.max (Z.of_nat lo) 0)
                         (Z.of_nat (String.length (textOf el))))) with lo by lia.
    replace (Z.to_nat (Z.min (Z.max (Z.of_nat hi + 1) 0)
                         (Z.of_nat (String.length (textOf el))))) with (S hi) by lia.
    rewrite Nat.min_l, Nat.max_r by lia.
    destruct (k <=? hi - lo)%nat eqn:E.
    + apply Nat.leb_le in E. rewrite (Nat.add_comm lo k).
      apply substring_correct1. lia.
    + apply Nat.leb_gt in E. apply substring_correct2. lia.
Qed.

Lemma C5_partial_element_witness :
  getSelectedText Sample.helloDoc = Ret ["ell"] Sample.helloDoc []
  /\ String.get 0 "ell" = String.get 1 "hello".
Proof.
  destruct (C5_partial_element_yields_the_inclusive_slice Sample.helloDoc [] []
              (mkRangeElement 1%nat true 1 3) (Sample.textElement "hello")
              eq_refl eq_refl eq_refl eq_refl) as (H1 & H2 & _).
  split; [exact H1|].
  exact (H2 1%nat 3%nat eq_refl eq_refl ltac:(simpl; lia) 0%nat).
Defined.

(** ** C6: inserting at a cursor *)

(** C6: without a selection and with a cursor at an offset inside the
    surrounding text, [insertLink] inserts [newText] with one space in
    front exactly when there is a character before the cursor and it is
    not a space, and one space behind exactly when there is a character
    after the cursor and it is not a space; the inserted run is what
    carries the link.  Between x and y the text link goes in as
    " link "; after a space nothing is put in front. *)
Theorem C6_cursor_insertion_pads_with_spaces
    (fuel : nat) (newText link : string) (d : Document) (p : Position)
    (el : Element) :
  selection d = None ->
  cursor d = Some p ->
  elements d !! getSurroundingText p = Some el ->
  (0 <= getSurroundingTextOffset p <= Z.of_nat (length (el_text el)))%Z ->
  let r := getSurroundingText p in
  let o := Z.to_nat (getSurroundingTextOffset p) in
  let inserted :=
    pad (wantsSpace (charBefore (textOf el) o)) ++ newText
    ++ pad (wantsSpace (charAfter (textOf el) o)) in
  (exists d' el',
     insertLink fuel newText link d
     = Ret tt d'
         [InsertText r (getSurroundingTextOffset p) inserted;
          SetLinkUrlInserted r o (String.length inserted) link]
     /\ elements d' !! r = Some el'
     /\ el_text el'
        = (take o (el_text el)
           ++ map (fun c => (c, Some link)) (list_ascii_of_string inserted)
           ++ drop o (el_text el))%list)
  /\ padded "xy" 1 "link" = " link "
  /\ padded " y" 1 "link" = "link ".
Proof.
  intros Hsel Hcur Hel Hoff r o inserted.
  split; [|split; reflexivity].
  pose proof (insertLink_at_cursor fuel newText link d p el Hsel Hcur Hel Hoff) as H.
  cbv zeta in H. rewrite padded_spec in H by (rewrite textOf_length; exact Hoff).
  fold r o inserted in H.
  eexists _, _. split; [exact H|]. split.
  - rewrite store_lookup. destruct (decide (r = r)); [reflexivity|congruence].
  - reflexivity.
Qed.

Lemma C6_cursor_insertion_witness :
  exists d' el',
    insertLink 0 "link" "L" (Sample.cursorDoc "xy" 1)
    = Ret tt d' [InsertText 1%nat 1 " link "; SetLinkUrlInserted 1%nat 1 6 "L"]
    /\ elements d' !! 1%nat = Some el'
    /\ textOf el' = "x link y".
Proof.
  destruct (C6_cursor_insertion_pads_with_spaces 0 "link" "L"
              (Sample.cursorDoc "xy" 1) (mkPosition 1%nat 1)
              (Sample.textElement "xy") eq_refl eq_refl eq_refl
              ltac:(simpl; lia)) as ((d' & el' & H1 & H2 & H3) & _).
  exists d', el'. split; [exact H1|]. split; [exact H2|].
  unfold textOf. rewrite H3. reflexivity.
Defined.

(** ** C7: the fault of the extractor *)

(** C7: [getSelectedText] raises the fault no-text-selected exactly when
    there is no selection or every range element yields no text (a whole
    element that is not text-editable or whose text is empty); in both
    cases the caller gets the same outcome, the same thrown string with
    the document untouched.  A selection over one image fails so. *)
Theorem C7_no_text_selected_fault (d : Document) :
  ((exists d' tr, getSelectedText d = Raise (Thrown noTextSelected) d' tr)
   <-> (selection d = None
        \/ exists res, selection d = Some res
                       /\ forallb (yieldsNoText d) res = true))
  /\ (selection d = None ->
      getSelectedText d = Raise (Thrown noTextSelected) d [])
  /\ (forall res, selection d = Some res ->
      forallb (yieldsNoText d) res = true ->
      getSelectedText d = Raise (Thrown noTextSelected) d [])
  /\ getSelectedText Sample.imageDoc
     = Raise (Thrown noTextSelected) Sample.imageDoc [].
Proof.
  assert (Hnone : selection d = None ->
                  getSelectedText d = Raise (Thrown noTextSelected) d []).
  { intros H. rewrite getSelectedText_unfold, H. reflexivity. }
  assert (Hall : forall res, selection d = Some res ->
                 forallb (yieldsNoText d) res = true ->
                 getSelectedText d = Raise (Thrown noTextSelected) d []).
  { intros res H Hy. apply all_yieldNoText_iff in Hy as [Hr Hp].
    rewrite getSelectedText_unfold, H, Hr, Hp. reflexivity. }
  split; [|split; [exact Hnone|split; [exact Hall|reflexivity]]].
  split.
  - intros (d' & tr & H). rewrite getSelectedText_unfold in H.
    destruct (selection d) as [res|]; [right|left; reflexivity].
    exists res. split; [reflexivity|]. apply all_yieldNoText_iff.
    destruct (forallb (resolves d) res); [|discriminate H].
    destruct (flat_map (pushedIn d) res); [auto|discriminate H].
  - intros [H|(res & H & Hy)]; exists d, []; eauto.
Qed.

(** ** C8: the fault of the applier *)

(** C8: [insertLink] raises a thrown string only when there is neither a
    selection nor a cursor, the string is then the no-insertion-point
    message, and the document is as it was and no host call was made;
    and without selection and cursor it does raise it. *)
Theorem C8_no_insertion_point_fault
    (fuel : nat) (newText link : string) (d : Document) :
  (forall message d' tr,
     insertLink fuel newText link d = Raise (Thrown message) d' tr ->
     selection d = None /\ cursor d = None
     /\ message = noInsertionPoint /\ d' = d /\ tr = [])
  /\ (selection d = None -> cursor d = None ->
      insertLink fuel newText link d = Raise (Thrown noInsertionPoint) d [])
  /\ insertLink fuel newText link Sample.emptyDoc
     = Raise (Thrown noInsertionPoint) Sample.emptyDoc [].
Proof.
  split; [|split; [|reflexivity]].
  - intros message d' tr H. unfold insertLink in H.
    rewrite (bind_read _ _ d (selection d) eq_refl) in H.
    destruct (selection d) as [res|].
    + apply (quiet_foldM _ tt res (fun _ e => quiet_insertLink_round fuel link e)) in H.
      destruct H; discriminate.
    + rewrite (bind_read _ _ d (cursor d) eq_refl) in H.
      destruct (cursor d) as [p|].
      * assert (Q : quiet (bind (getText (getSurroundingText p))
                             (fun surroundingText =>
                                insertTextLinked p
                                  (padded surroundingText
                                     (getSurroundingTextOffset p) newText) link))).
        { apply quiet_bind; [|intros; apply quiet_insertTextLinked].
          apply quiet_bind; [apply quiet_deref|intros; apply quiet_ret]. }
        apply Q in H. destruct H; discriminate.
      * injection H as <- <- <-. auto.
  - intros Hsel Hcur. unfold insertLink.
    rewrite (bind_read _ _ d (selection d) eq_refl), Hsel.
    rewrite (bind_read _ _ d (cursor d) eq_refl), Hcur. reflexivity.
Qed.

(** ** C9: a method that is neither url nor searchDrive *)

(** C9 as worded fails: the array that holds the string url is an
    argument other than the string url, yet [==] compares its
    [toString()], so [linkify] returns the reference lookup and not
    [undefined]. *)
Lemma C9_array_argument_gets_the_lookup :
  ~ otherArgumentMeansUndefined Sample.anchorPage (VArray [VString "url"])
      None Sample.helloDoc.
Proof.
  intros H.
  specialize (H ltac:(discriminate) ltac:(discriminate)
                ["ell"] Sample.helloDoc [] eq_refl).
  vm_compute in H. discriminate H.
Qed.

(** C9, amended: when the method is [undefined], [null], a boolean, or a
    string other than url and searchDrive, and the extraction returns,
    [linkify] returns [undefined] ([None]): no result object, no fault,
    and nothing done beyond the extraction. *)
Theorem C9_plain_other_method_returns_undefined
    (sv : Services) (method : JsValue) (lang : option string)
    (d d' : Document) (text : list string) (tr : list Event) :
  plainValue method = true ->
  method <> VString "url" ->
  method <> VString "searchDrive" ->
  getSelectedText d = Ret text d' tr ->
  linkify sv method lang d = Ret None d' tr.
Proof.
  intros Hp Hu Hs H. unfold linkify, bind. rewrite H.
  assert (E1 : looselyEquals method "url" = false).
  { destruct method as [| | |m| |]; try reflexivity; try discriminate Hp.
    simpl. apply String.eqb_neq. congruence. }
  assert (E2 : looselyEquals method "searchDrive" = false).
  { destruct method as [| | |m| |]; try reflexivity; try discriminate Hp.
    simpl. apply String.eqb_neq. congruence. }
  rewrite E1, E2. unfold ret. rewrite app_nil_r. reflexivity.
Qed.

Lemma C9_plain_other_method_witness :
  linkify Sample.twoFiles (VString "translate") None Sample.helloDoc
  = Ret None Sample.helloDoc [].
Proof.
  apply (C9_plain_other_method_returns_undefined Sample.twoFiles
           (VString "translate") None Sample.helloDoc Sample.helloDoc
           ["ell"] []).
  - reflexivity.
  - discriminate.
  - discriminate.
  - reflexivity.
Defined.

(** ** C10: termination on trees *)

(** C10: on a finite element tree [setLinkOnAllChildren] returns as soon
    as the budget of steps exceeds the number of nodes of the tree, and
    a larger budget changes nothing in what it returns: no set of visited
    nodes is needed. *)
Theorem C10_setLinkOnAllChildren_returns_on_trees
    (fuel : nat) (d : Document) (t : Tree) (link : string) :
  represents (elements d) t = true ->
  (size t < fuel)%nat ->
  exists d' tr,
    setLinkOnAllChildren fuel (root t) link d = Ret tt d' tr
    /\ forall fuel', (size t < fuel')%nat ->
         setLinkOnAllChildren fuel' (root t) link d = Ret tt d' tr.
Proof.
  intros Hrep Hsz.
  destruct (setLinkOnAllChildren_tree fuel t d link Hrep Hsz) as [d' E].
  exists d', (map (fun l => SetLinkUrl l link) (leaves t)).
  split; [exact E|]. intros fuel' Hsz'.
  destruct (setLinkOnAllChildren_tree fuel' t d link Hrep Hsz') as [d'' E'].
  destruct (tidy_setLinkOnAllChildren _ _ _ _ _ _ _ E) as (R & _).
  destruct (tidy_setLinkOnAllChildren _ _ _ _ _ _ _ E') as (R' & _).
  rewrite E'. congruence.
Qed.

Lemma C10_setLinkOnAllChildren_witness :
  exists d' tr,
    setLinkOnAllChildren 7 1%nat "L" Sample.nestedDoc = Ret tt d' tr
    /\ forall fuel', (6 < fuel')%nat ->
         setLinkOnAllChildren fuel' 1%nat "L" Sample.nestedDoc = Ret tt d' tr.
Proof.
  exact (C10_setLinkOnAllChildren_returns_on_trees 7 Sample.nestedDoc
           Sample.nestedTree "L" eq_refl ltac:(simpl; lia)).
Defined.

(** * Further facts

    ** The substitution in the reference page *)

Module ReferencePageFacts.
Import JsString.

Lemma relink_match (s : string) :
  replaceAll nohrefAttr hrefAttr (nohrefAttr ++ s)
  = hrefAttr ++ replaceAll nohrefAttr hrefAttr s.
Proof.
  unfold replaceAll.
  pose proof (prefix_app nohrefAttr s) as Hp.
  pose proof (replaceFrom_skip nohrefAttr hrefAttr ("ohref=" ++ dq) s) as Hs.
  assert (E : nohrefAttr ++ s = String "n" (("ohref=" ++ dq) ++ s)) by reflexivity.
  rewrite E in Hp |- *. cbn [replaceFrom]. rewrite Hp. f_equal; try exact Hs.
Qed.

Lemma relink_step (c : ascii) (s : string) :
  String.prefix nohrefAttr (String c s) = false ->
  replaceAll nohrefAttr hrefAttr (String c s)
  = String c (replaceAll nohrefAttr hrefAttr s).
Proof. intros H. unfold replaceAll. cbn [replaceFrom]. rewrite H. reflexivity. Qed.

(** Where the scan copied a character, no [nohrefAttr] starts in the
    output. *)
Lemma unlink_no_fresh_match (c : ascii) (s : string) :
  String.prefix hrefAttr (String c s) = false ->
  String.prefix nohrefAttr (String c (replaceAll hrefAttr nohrefAttr s)) = false.
Proof.
  intros Hp.
  destruct (String.prefix nohrefAttr
              (String c (replaceAll hrefAttr nohrefAttr s))) eqn:E; [|reflexivity].
  exfalso. apply prefix_split in E as [rest E].
  unfold nohrefAttr in E. revert E. push_app. intros [= -> E].
  apply unlink_head in E as (s1 & -> & E & _); [|discriminate].
  apply unlink_head in E as (s2 & -> & E & Hq); [|discriminate].
  apply (unlink_tail s2 rest); [exact Hq|exact E].
Qed.

Lemma relink_unlink (n : nat) (s : string) :
  (String.length s <= n)%nat ->
  replaceAll nohrefAttr hrefAttr (replaceAll hrefAttr nohrefAttr s) = s.
Proof.
  revert s. induction n as [|n IH]; intros s Hn.
  - destruct s; [reflexivity|simpl in Hn; lia].
  - destruct s as [|c s]; [reflexivity|].
    destruct (String.prefix hrefAttr (String c s)) eqn:E.
    + destruct (prefix_split _ _ E) as [s' Hs]. rewrite Hs in Hn |- *.
      rewrite unlink_match, relink_match, IH; [reflexivity|].
      rewrite append_length in Hn. unfold hrefAttr in Hn. simpl in Hn. lia.
    + rewrite unlink_step by assumption.
      rewrite relink_step by (apply unlink_no_fresh_match; assumption).
      rewrite IH; [reflexivity|]. simpl in Hn. lia.
Qed.

Lemma unlink_length (n : nat) (s : string) :
  (String.length s <= n)%nat ->
  String.length (replaceAll hrefAttr nohrefAttr s)
  = (String.length s + 2 * occurrences hrefAttr s)%nat.
Proof.
  revert s. induction n as [|n IH]; intros s Hn.
  - destruct s; [reflexivity|simpl in Hn; lia].
  - destruct s as [|c s]; [reflexivity|].
    destruct (String.prefix hrefAttr (String c s)) eqn:E.
    + destruct (prefix_split _ _ E) as [s' Hs]. rewrite Hs in Hn |- *.
      rewrite unlink_match, !append_length.
      unfold hrefAttr at 3. rewrite occurrences_self by reflexivity.
      fold hrefAttr. rewrite IH.
      * unfold hrefAttr, nohrefAttr. simpl String.length. lia.
      * rewrite append_length in Hn. unfold hrefAttr in Hn. simpl in Hn. lia.
    + rewrite unlink_step by assumption. cbn [occurrences String.length].
      rewrite E, IH by (simpl in Hn; lia). lia.
Qed.

Lemma unlink_nothing (s : string) :
  occurrences hrefAttr s = 0%nat -> replaceAll hrefAttr nohrefAttr s = s.
Proof.
  induction s as [|c s IH]; [reflexivity|]. cbn [occurrences].
  destruct (String.prefix hrefAttr (String c s)) eqn:E; [discriminate|].
  intros H. rewrite unlink_step by assumption. rewrite IH by exact H. reflexivity.
Qed.

End ReferencePageFacts.

(** ** The word and its encoding *)

Module WordFacts.
Import JsString.

(** *** Characters of an encoded word *)




End WordFacts.

(** ** What the extraction and the linking see of a document *)

Module SelectionFacts.
Local Close Scope string_scope.

Lemma skeleton_textOf el el' : skeleton el = skeleton el' -> textOf el = textOf el'.
Proof. unfold skeleton, textOf. intros [= _ _ _ H]. rewrite H. reflexivity. Qed.

Lemma sameShape_resolves d e x :
  sameShape d e -> resolves d x = resolves e x.
Proof.
  intros (_ & _ & H). specialize (H (getElement x)). unfold resolves.
  destruct (elements d !! getElement x), (elements e !! getElement x);
    try discriminate H; [|reflexivity].
  rewrite !bool_decide_eq_true_2 by eauto. reflexivity.
Qed.

Lemma sameShape_pushedIn d e x :
  sameShape d e -> pushedIn d x = pushedIn e x.
Proof.
  intros (_ & _ & H). specialize (H (getElement x)). unfold pushedIn.
  destruct (elements d !! getElement x) as [el|],
           (elements e !! getElement x) as [el'|];
    try discriminate H; [|reflexivity].
  apply (inj Some) in H. unfold pushed.
  rewrite (skeleton_textOf _ _ H).
  injection H as _ _ -> _. reflexivity.
Qed.

Lemma forallb_pointwise {A} (f g : A -> bool) (l : list A) :
  (forall a, f a = g a) -> forallb f l = forallb g l.
Proof. intros H. induction l as [|a l IH]; simpl; [reflexivity|]. rewrite H, IH. reflexivity. Qed.

Lemma flat_map_pointwise {A B} (f g : A -> list B) (l : list A) :
  (forall a, f a = g a) -> flat_map f l = flat_map g l.
Proof. intros H. induction l as [|a l IH]; simpl; [reflexivity|]. rewrite H, IH. reflexivity. Qed.

(** The extraction reads the shape of the document only. *)
Lemma getSelectedText_shape d e :
  sameShape d e ->
  match getSelectedText d with
  | Ret text _ _ => getSelectedText e = Ret text e []
  | Raise x _ _ => getSelectedText e = Raise x e []
  | OutOfFuel => False
  end.
Proof.
  intros Hs. rewrite !getSelectedText_unfold.
  pose proof Hs as (Hsel & _ & _). rewrite <- Hsel. clear Hsel.
  destruct (selection d) as [res|] eqn:Esel; [|reflexivity].
  rewrite <- (forallb_pointwise (resolves d) (resolves e) res)
    by (intros; apply sameShape_resolves; exact Hs).
  rewrite <- (flat_map_pointwise (pushedIn d) (pushedIn e) res)
    by (intros; apply sameShape_pushedIn; exact Hs).
  destruct (forallb (resolves d) res); [|reflexivity].
  destruct (flat_map (pushedIn d) res); reflexivity.
Qed.

Lemma pushedIn_short d e : (length (pushedIn d e) <= 1)%nat.
Proof.
  unfold pushedIn, pushed. destruct (elements d !! getElement e); [|simpl; lia].
  destruct (isPartial e); [simpl; lia|]. destruct (_ && _); simpl; lia.
Qed.

Lemma pushedIn_all_short d res :
  (length (flat_map (pushedIn d) res) <= length res)%nat.
Proof.
  induction res as [|e res IH]; simpl; [lia|].
  rewrite length_app. pose proof (pushedIn_short d e). lia.
Qed.


(** *** Only leaves are linked *)

Lemma sameShape_leaf d e r el :
  sameShape d e -> elements e !! r = Some el -> isLeafElement el = true ->
  exists el0, elements d !! r = Some el0 /\ isLeafElement el0 = true.
Proof.
  intros Hs Hr Hl. apply sameShape_sym in Hs.
  destruct (sameShape_element _ _ _ _ Hs Hr) as (el0 & H1 & H2).
  exists el0. split; [exact H1|]. unfold isLeafElement in *. rewrite H2. exact Hl.
Qed.

Lemma deref_bind_Ret_inv {A} r (g : Element -> M A) d a d1 tr :
  bind (deref r) g d = Ret a d1 tr ->
  exists el, elements d !! r = Some el /\ g el d = Ret a d1 tr.
Proof.
  intros H. destruct (elements d !! r) as [el|] eqn:E.
  - rewrite (bind_read _ _ _ _ (deref_Ret _ _ _ E)) in H. eauto.
  - rewrite (bind_Raise _ _ _ _ _ _ (deref_Raise _ _ E)) in H. discriminate H.
Qed.

Lemma getNumChildren_Ret_inv r d n d1 tr :
  getNumChildren r d = Ret n d1 tr -> d1 = d /\ tr = [].
Proof.
  intros H. apply deref_bind_Ret_inv in H as (el & _ & H).
  destruct (el_children el); [|discriminate H]. injection H as _ <- <-. auto.
Qed.

Lemma getChild_Ret_inv r i d c d1 tr :
  getChild r i d = Ret c d1 tr -> d1 = d /\ tr = [].
Proof.
  intros H. apply deref_bind_Ret_inv in H as (el & _ & H).
  destruct (el_children el) as [cs|]; [|discriminate H].
  destruct (cs !! i); [|discriminate H]. injection H as _ <- <-. auto.
Qed.

Lemma setLinkUrl_leaf_call d0 d r el link d1 tr :
  sameShape d0 d -> elements d !! r = Some el -> isLeafElement el = true ->
  setLinkUrl r link d = Ret tt d1 tr ->
  Forall (fun ev => exists l el0, ev = SetLinkUrl l link
                      /\ elements d0 !! l = Some el0
                      /\ isLeafElement el0 = true) tr.
Proof.
  intros Hs Hr Hl H. rewrite (setLinkUrl_Ret _ _ _ _ Hr) in H.
  injection H as _ <-. constructor; [|constructor].
  destruct (sameShape_leaf _ _ _ _ Hs Hr Hl) as (el0 & H1 & H2).
  exists r, el0. auto.
Qed.

(** Whatever the store looks like, the calls of [setLinkOnAllChildren]
    are [setLinkUrl] calls on elements without children. *)
Lemma setLinkOnAllChildren_leaf_calls fuel :
  forall element link d0 d d1 tr,
    sameShape d0 d ->
    setLinkOnAllChildren fuel element link d = Ret tt d1 tr ->
    Forall (fun ev => exists l el0, ev = SetLinkUrl l link
                        /\ elements d0 !! l = Some el0
                        /\ isLeafElement el0 = true) tr.
Proof.
  induction fuel as [|fuel IH]; intros element link d0 d d1 tr Hs H;
    [discriminate H|].
  cbn [setLinkOnAllChildren] in H.
  destruct (elements d !! element) as [el|] eqn:Er.
  2:{ unfold has_getNumChildren in H.
      rewrite (bind_Raise _ _ _ _ _ _
                 (bind_Raise _ _ _ _ _ _ (deref_Raise _ _ Er))) in H.
      discriminate H. }
  rewrite (bind_read _ _ _ _ (has_getNumChildren_Ret _ _ _ Er)) in H.
  destruct (el_children el) as [cs|] eqn:Ec.
  - rewrite bool_decide_eq_true_2 in H by eauto. simpl negb in H. cbv iota in H.
    rewrite (bind_read _ _ d (length cs =? 0)%nat) in H.
    2:{ rewrite (bind_read _ _ _ _ (getNumChildren_Ret _ _ _ _ Er Ec)). reflexivity. }
    destruct (length cs =? 0)%nat eqn:En.
    + apply (setLinkUrl_leaf_call d0 d element el link d1 tr Hs Er); [|exact H].
      unfold isLeafElement. rewrite Ec. exact En.
    + clear En Ec Er. revert H. generalize 0%nat as i. generalize fuel at 1 as budget.
      intros budget. revert d d1 tr Hs.
      induction budget as [|budget IHb]; intros d d1 tr Hs i H; [discriminate H|].
      cbn [forUpTo] in H.
      apply bind_Ret_inv in H as (n & d2 & tr1 & tr2 & H1 & H2 & ->).
      apply getNumChildren_Ret_inv in H1 as [-> ->]. simpl.
      destruct (i <? n)%nat.
      * apply bind_Ret_inv in H2 as ([] & d3 & tr3 & tr4 & H3 & H4 & ->).
        apply bind_Ret_inv in H3 as (child & d4 & tr5 & tr6 & H5 & H6 & ->).
        apply getChild_Ret_inv in H5 as [-> ->]. simpl.
        apply Forall_app. split.
        -- exact (IH child link d0 d d3 tr6 Hs H6).
        -- eapply (IHb d3 d1 tr4); [|exact H4].
           destruct (tidy_setLinkOnAllChildren _ _ _ _ _ _ _ H6) as (R & L & _).
           apply (sameShape_trans _ d); [exact Hs|].
           exact (replay_shape _ _ _ _ L R).
      * injection H2 as _ <-. constructor.
  - rewrite bool_decide_eq_false_2 in H by (intros [? ?]; discriminate).
    simpl negb in H. cbv iota in H. rewrite (bind_read _ _ d true eq_refl) in H.
    apply (setLinkUrl_leaf_call d0 d element el link d1 tr Hs Er); [|exact H].
    unfold isLeafElement. rewrite Ec. reflexivity.
Qed.

End SelectionFacts.

(** ** Ranges and cursors *)

Module ApplierFacts.

(** [insertLink] on a selection that is one partial range over text. *)
Lemma insertLink_partial_text fuel newText link d e el :
  selection d = Some [e] ->
  elements d !! getElement e = Some el ->
  el_type el = TEXT ->
  isPartial e = true ->
  (0 <= getStartOffset e <= getEndOffsetInclusive e)%Z ->
  (getEndOffsetInclusive e < Z.of_nat (length (el_text el)))%Z ->
  insertLink fuel newText link d
  = Ret tt
      (store d (getElement e)
         (withText el
            (paint (inRange (getStartOffset e) (getEndOffsetInclusive e)) link
               (el_text el))))
      [SetLinkUrlRange (getElement e) (getStartOffset e)
         (getEndOffsetInclusive e) link].
Proof.
  intros Hsel Hel Hty Hp Hlo Hhi.
  rewrite (insertLink_selection _ _ _ _ _ Hsel). cbn [foldM].
  assert (E : insertLink_round fuel link e d
              = Ret tt
                  (store d (getElement e)
                     (withText el
                        (paint (inRange (getStartOffset e) (getEndOffsetInclusive e))
                           link (el_text el))))
                  [SetLinkUrlRange (getElement e) (getStartOffset e)
                     (getEndOffsetInclusive e) link]).
  { unfold insertLink_round. cbv zeta.
    rewrite (bind_read _ _ _ _ (getType_Ret _ _ _ Hel)), Hty, Hp.
    rewrite bool_decide_eq_true_2 by reflexivity. simpl andb. cbv iota.
    assert (Ha : applyEvent
                   (SetLinkUrlRange (getElement e) (getStartOffset e)
                      (getEndOffsetInclusive e) link) d
                 = Some (store d (getElement e)
                           (withText el
                              (paint (inRange (getStartOffset e)
                                        (getEndOffsetInclusive e)) link (el_text el))))).
    { apply (applyEvent_intro (SetLinkUrlRange _ _ _ link) d el _ Hel).
      simpl. replace (_ && _ && _)%bool with true; [reflexivity|].
      symmetry. rewrite !andb_true_iff.
      repeat split; [apply Z.leb_le|apply Z.leb_le|apply Z.ltb_lt]; lia. }
    change (true && true) with true. cbv iota.
    unfold setLinkUrlRange, call. rewrite Ha. reflexivity. }
  unfold bind. rewrite E. reflexivity.
Qed.

(** *** Text around a cursor *)

Lemma string_of_list_ascii_app (l1 l2 : list ascii) :
  string_of_list_ascii (l1 ++ l2)%list
  = string_of_list_ascii l1 ++ string_of_list_ascii l2.
Proof. induction l1 as [|c l1 IH]; simpl; [reflexivity|]. rewrite IH. reflexivity. Qed.

Lemma string_of_list_ascii_length (l : list ascii) :
  String.length (string_of_list_ascii l) = length l.
Proof. induction l as [|c l IH]; simpl; congruence. Qed.

Lemma charAfter_app (before after : string) :
  charAfter (before ++ after) (String.length before)
  = match after with String c _ => Some c | EmptyString => None end.
Proof.
  unfold charAfter. induction before as [|b before IH]; push_app; simpl.
  - destruct after; reflexivity.
  - exact IH.
Qed.

Lemma charBefore_app (before after : string) :
  match charBefore (before ++ after) (String.length before) with
  | Some c => exists y, before = y ++ String c ""
  | None => before = ""
  end.
Proof.
  unfold charBefore. induction before as [|b before IH]; [reflexivity|].
  simpl String.length. push_app. destruct before as [|b' before'].
  - simpl. exists "". reflexivity.
  - simpl String.length in *. cbn [get]. 
    destruct (get (String.length before') (String b' before' ++ after)) as [c|] eqn:E.
    + destruct IH as [y Hy]. exists (String b y). rewrite Hy. reflexivity.
    + discriminate IH.
Qed.

(** The padding leaves [newText] between spaces or text boundaries. *)
Lemma pads_delimit (before after : string) :
  let lead := pad (wantsSpace (charBefore (before ++ after) (String.length before))) in
  let trail := pad (wantsSpace (charAfter (before ++ after) (String.length before))) in
  (before = "" \/ exists y, before ++ lead = y ++ " ")
  /\ (after = "" \/ exists y, trail ++ after = " " ++ y).
Proof.
  cbv zeta. split.
  - pose proof (charBefore_app before after) as H.
    destruct (charBefore (before ++ after) (String.length before)) as [c|];
      [|left; exact H].
    right. destruct H as [y Hy]. simpl wantsSpace.
    destruct (Ascii.eqb c " ") eqn:E; simpl.
    + apply Ascii.eqb_eq in E. subst c. exists y. rewrite append_nil_r. exact Hy.
    + exists before. reflexivity.
  - rewrite charAfter_app. destruct after as [|c after]; [left; reflexivity|].
    right. simpl wantsSpace. destruct (Ascii.eqb c " ") eqn:E; simpl.
    + apply Ascii.eqb_eq in E. subst c. exists after. reflexivity.
    + exists (String c after). reflexivity.
Qed.

Lemma textOf_split el o :
  (o <= length (el_text el))%nat ->
  textOf el
  = string_of_list_ascii (map fst (take o (el_text el)))
    ++ string_of_list_ascii (map fst (drop o (el_text el)))
  /\ String.length (string_of_list_ascii (map fst (take o (el_text el)))) = o.
Proof.
  intros H. split.
  - unfold textOf. rewrite <- string_of_list_ascii_app, <- map_app, take_drop.
    reflexivity.
  - rewrite string_of_list_ascii_length, length_map, length_take_le by lia.
    reflexivity.
Qed.

End ApplierFacts.

Import ReferencePageFacts WordFacts SelectionFacts ApplierFacts.

(** * Further properties of the script

    ** The extractor *)

(** X1: [getSelectedText] only reads: however it ends, the document is
    as it was and no host call changed anything; and when it returns,
    the list is not empty and holds at most one fragment for each range
    element of the selection. *)
Theorem X1_extraction_only_reads (d : Document) :
  (forall text d' tr,
     getSelectedText d = Ret text d' tr ->
     d' = d /\ tr = [] /\ text <> []
     /\ exists res, selection d = Some res
                    /\ (length text <= length res)%nat)
  /\ (forall x d' tr, getSelectedText d = Raise x d' tr -> d' = d /\ tr = [])
  /\ getSelectedText d <> OutOfFuel.
Proof.
  rewrite getSelectedText_unfold.
  destruct (selection d) as [res|].
  - destruct (forallb (resolves d) res).
    + pose proof (pushedIn_all_short d res) as Hlen.
      destruct (flat_map (pushedIn d) res) as [|t text] eqn:E.
      * split; [discriminate|]. split; [|discriminate].
        intros x d' tr [= _ <- <-]. auto.
      * split; [|split; discriminate].
        intros text' d' tr [= <- <- <-]. repeat split; [discriminate|].
        exists res. auto.
    + split; [discriminate|]. split; [|discriminate].
      intros x d' tr [= _ <- <-]. auto.
  - split; [discriminate|]. split; [|discriminate].
    intros x d' tr [= _ <- <-]. auto.
Qed.

(** X2: when every range element of a non-empty selection is a whole
    element that can be edited as text and whose text is not empty,
    [getSelectedText] returns the full texts of the elements, in the
    order of the selection. *)
Theorem X2_whole_text_elements_yield_their_text
    (d : Document) (res : list RangeElement) :
  selection d = Some res ->
  res <> [] ->
  forallb (fun e =>
             negb (isPartial e)
             && match elements d !! getElement e with
                | Some el => el_editAsText el && negb (String.eqb (textOf el) "")
                | None => false
                end) res = true ->
  getSelectedText d
  = Ret (omap (fun e => textOf <$> (elements d !! getElement e)) res) d [].
Proof.
  intros Hsel Hne Hall. rewrite getSelectedText_unfold, Hsel.
  assert (H : forallb (resolves d) res = true
              /\ flat_map (pushedIn d) res
                 = omap (fun e => textOf <$> (elements d !! getElement e)) res).
  { clear Hsel Hne. induction res as [|e res IH]; [split; reflexivity|].
    cbn [forallb] in Hall. apply andb_true_iff in Hall as [He Hall].
    destruct (IH Hall) as [IH1 IH2]. apply andb_true_iff in He as [Hp He].
    apply negb_true_iff in Hp. cbn [forallb flat_map omap]. unfold resolves at 1.
    unfold pushedIn at 1, pushed.
    destruct (elements d !! getElement e) as [el|] eqn:Ee; [|discriminate He].
    rewrite bool_decide_eq_true_2 by eauto. rewrite Hp, He, IH1, IH2.
    split; [reflexivity|]. cbn [omap list_omap]. rewrite Ee. reflexivity. }
  destruct H as [-> ->].
  destruct res as [|e res]; [congruence|].
  cbn [forallb] in Hall. apply andb_true_iff in Hall as [He _].
  apply andb_true_iff in He as [_ He]. cbn [omap list_omap].
  destruct (elements d !! getElement e); [reflexivity|discriminate He].
Qed.

Lemma X2_whole_text_elements_witness :
  getSelectedText Sample.twoTextsDoc
  = Ret ["world"; "hello"] Sample.twoTextsDoc [].
Proof.
  exact (X2_whole_text_elements_yield_their_text Sample.twoTextsDoc
           [Sample.whole 2%nat; Sample.whole 1%nat]
           eq_refl ltac:(discriminate) eq_refl).
Defined.

(** ** The resolvers *)

(** X3: for the files the search yields, the url of [createDriveUrls]
    is undefined exactly when there is no file, its page is the
    no-results sentence exactly then, and its word is the first fragment
    as given (undefined for an empty array, for which the search is for
    the title undefined). *)
Theorem X3_no_results_page (sv : Services) (text : list string) :
  let files :=
    searchFiles sv ("title contains '" ++ toString (text !! 0%nat) ++ "'") in
  (files = [] <-> url (createDriveUrls sv text) = None)
  /\ (files = [] <-> page (createDriveUrls sv text) = "No matching results found :-(")
  /\ word (createDriveUrls sv text) = text !! 0%nat.
Proof.
  cbv zeta. unfold createDriveUrls.
  destruct (searchFiles sv _) as [|f files].
  - simpl. repeat split; reflexivity.
  - rewrite createDriveUrls_loop. cbn [url page word fst snd].
    rewrite last_cons. split; [|split; [|reflexivity]].
    + split; [discriminate|]. destruct (last files); discriminate.
    + split; [discriminate|]. unfold formOpen. push_app.
      cbn [String.eqb]. simpl Ascii.eqb. cbv iota. push_app. discriminate.
Qed.



(** X6: the page of [createWikiUrl] loses nothing of the fetched body:
    writing [hrefAttr] back for every [nohrefAttr] of the page gives the
    body that was fetched from the url. *)
Theorem X6_links_can_be_restored
    (sv : Services) (text : list string) (lang : option string)
    (r : LinkResult) :
  createWikiUrl sv text lang = inr r ->
  exists u,
    url r = Some u
    /\ JsString.replaceAll nohrefAttr hrefAttr (page r) = fetch sv u.
Proof.
  unfold createWikiUrl. destruct text as [|first rest]; [discriminate|].
  cbn [lookup list_lookup]. simpl. intros [= <-]. cbn [url page].
  eexists. split; [reflexivity|]. eapply relink_unlink. reflexivity.
Qed.

Lemma X6_links_can_be_restored_witness :
  exists u,
    Some "http://en.wikipedia.org/wiki/Cat" = Some u
    /\ JsString.replaceAll nohrefAttr hrefAttr
         (JsString.replaceAll hrefAttr nohrefAttr
            (fetch Sample.anchorPage "http://en.wikipedia.org/wiki/Cat"))
       = fetch Sample.anchorPage u.
Proof.
  exact (X6_links_can_be_restored Sample.anchorPage ["Cat"] None _ eq_refl).
Defined.

(** X7: the page of [createWikiUrl] is longer than the fetched body by
    two characters for every [hrefAttr] in the body, and is the body
    itself when the body holds none. *)
Theorem X7_page_grows_by_two_per_link
    (sv : Services) (text : list string) (lang : option string)
    (r : LinkResult) :
  createWikiUrl sv text lang = inr r ->
  exists u,
    url r = Some u
    /\ String.length (page r)
       = (String.length (fetch sv u)
          + 2 * JsString.occurrences hrefAttr (fetch sv u))%nat
    /\ (JsString.occurrences hrefAttr (fetch sv u) = 0%nat ->
        page r = fetch sv u).
Proof.
  unfold createWikiUrl. destruct text as [|first rest]; [discriminate|].
  cbn [lookup list_lookup]. simpl. intros [= <-]. cbn [url page].
  eexists. split; [reflexivity|]. split.
  - eapply unlink_length. reflexivity.
  - apply unlink_nothing.
Qed.

Lemma X7_page_grows_witness :
  exists u,
    Some "http://en.wikipedia.org/wiki/Cat" = Some u
    /\ String.length
         (JsString.replaceAll hrefAttr nohrefAttr
            (fetch Sample.anchorPage "http://en.wikipedia.org/wiki/Cat"))
       = (String.length (fetch Sample.anchorPage u)
          + 2 * JsString.occurrences hrefAttr (fetch Sample.anchorPage u))%nat
    /\ (JsString.occurrences hrefAttr (fetch Sample.anchorPage u) = 0%nat ->
        JsString.replaceAll hrefAttr nohrefAttr
          (fetch Sample.anchorPage "http://en.wikipedia.org/wiki/Cat")
        = fetch Sample.anchorPage u).
Proof.
  exact (X7_page_grows_by_two_per_link Sample.anchorPage ["Cat"] None _ eq_refl).
Defined.

(** ** The entry point *)

(** X8: [linkify] changes nothing in the document: whatever the method
    argument, and whether it returns or raises, the document is as it
    was and no host call changed anything; and when the extraction
    raises, [linkify] raises that fault, whatever the method, before
    anything is looked up. *)
Theorem X8_linkify_only_reads
    (sv : Services) (method : JsValue) (lang : option string) (d : Document) :
  match linkify sv method lang d with
  | Ret _ d' tr => d' = d /\ tr = []
  | Raise _ d' tr => d' = d /\ tr = []
  | OutOfFuel => False
  end
  /\ forall x d' tr,
       getSelectedText d = Raise x d' tr ->
       linkify sv method lang d = Raise x d' tr.
Proof.
  split.
  - unfold linkify, bind. rewrite getSelectedText_unfold.
    destruct (selection d) as [res|]; [|auto].
    destruct (forallb (resolves d) res); [|auto].
    destruct (flat_map (pushedIn d) res) as [|t text]; [auto|].
    destruct (looselyEquals method "url").
    + unfold createWikiUrl. cbn [lookup list_lookup]. simpl. auto.
    + destruct (looselyEquals method "searchDrive"); simpl; auto.
  - intros x d' tr H. unfold linkify, bind. rewrite H. reflexivity.
Qed.



(** ** The applier *)

(** X10: with a selection [insertLink] only sets links: when it returns,
    every host call it made sets the given link, the document has the
    same selection, cursor, elements, element types, child lists and
    characters as before, and the [newText] argument played no part: any
    other text gives the same calls and the same document. *)
Theorem X10_selection_branch_only_links
    (fuel : nat) (newText link : string) (d d1 : Document) (tr : list Event) :
  is_Some (selection d) ->
  insertLink fuel newText link d = Ret tt d1 tr ->
  sameShape d d1
  /\ Forall (linksTo link) tr
  /\ forall otherText, insertLink fuel otherText link d = Ret tt d1 tr.
Proof.
  intros [res Hsel] H. rewrite (insertLink_selection _ _ _ _ _ Hsel) in H.
  destruct (tidy_foldM link (fun _ e => insertLink_round fuel link e) tt res
              (fun _ e => tidy_insertLink_round fuel link e) _ _ _ _ H)
    as (R & L & _).
  split; [exact (replay_shape _ _ _ _ L R)|]. split; [exact L|].
  intros otherText. rewrite (insertLink_selection _ _ _ _ _ Hsel). exact H.
Qed.

Lemma X10_selection_branch_witness :
  exists d1 tr,
    insertLink 7 "w" "L" Sample.nestedDoc = Ret tt d1 tr
    /\ sameShape Sample.nestedDoc d1
    /\ Forall (linksTo "L") tr
    /\ forall otherText, insertLink 7 otherText "L" Sample.nestedDoc = Ret tt d1 tr.
Proof.
  assert (H : exists d1 tr, insertLink 7 "w" "L" Sample.nestedDoc = Ret tt d1 tr)
    by (vm_compute; eauto).
  destruct H as (d1 & tr & H). exists d1, tr. split; [exact H|].
  apply (X10_selection_branch_only_links 7 "w" "L" Sample.nestedDoc d1 tr);
    [simpl; eauto|exact H].
Defined.

(** X11: for a selection that is one partial range over a text element,
    with offsets inside the text, [insertLink] makes the single host call
    setLinkUrl(start, end, link); afterwards exactly the characters at
    the offsets start to end carry the link, every other character keeps
    the link it had, no character changes, and every other element is
    untouched. *)
Theorem X11_partial_text_range_links_exactly_the_range
    (fuel : nat) (newText link : string) (d : Document) (e : RangeElement)
    (el : Element) :
  selection d = Some [e] ->
  elements d !! getElement e = Some el ->
  el_type el = TEXT ->
  isPartial e = true ->
  (0 <= getStartOffset e <= getEndOffsetInclusive e)%Z ->
  (getEndOffsetInclusive e < Z.of_nat (length (el_text el)))%Z ->
  exists d' el',
    insertLink fuel newText link d
    = Ret tt d'
        [SetLinkUrlRange (getElement e) (getStartOffset e)
           (getEndOffsetInclusive e) link]
    /\ elements d' !! getElement e = Some el'
    /\ (forall (i : nat) c l,
          el_text el !! i = Some (c, l) ->
          el_text el' !! i
          = Some (c, if ((getStartOffset e <=? Z.of_nat i)
                         && (Z.of_nat i <=? getEndOffsetInclusive e))%Z
                     then Some link else l))
    /\ length (el_text el') = length (el_text el)
    /\ el_linkUrl el' = el_linkUrl el
    /\ (forall r, r <> getElement e -> elements d' !! r = elements d !! r).
Proof.
  intros Hsel Hel Hty Hp Hlo Hhi.
  rewrite (insertLink_partial_text fuel newText link d e el Hsel Hel Hty Hp Hlo Hhi).
  eexists _, _. split; [reflexivity|]. split.
  { rewrite store_lookup. destruct (decide _); [reflexivity|congruence]. }
  cbn [el_text el_linkUrl withText]. split; [|split; [|split]].
  - intros i c l Hi. rewrite paint_lookup, Hi. simpl. unfold inRange.
    destruct (_ && _)%bool; reflexivity.
  - apply paint_length.
  - reflexivity.
  - intros r Hr. rewrite store_lookup. destruct (decide _); congruence.
Qed.

Lemma X11_partial_text_range_witness :
  exists d' el',
    insertLink 0 "w" "L" Sample.helloDoc
    = Ret tt d' [SetLinkUrlRange 1%nat 1 3 "L"]
    /\ elements d' !! 1%nat = Some el'
    /\ el_text el' !! 0%nat = Some ("h"%char, None)
    /\ el_text el' !! 2%nat = Some ("l"%char, Some "L").
Proof.
  destruct (X11_partial_text_range_links_exactly_the_range 0 "w" "L"
              Sample.helloDoc (mkRangeElement 1%nat true 1 3)
              (Sample.textElement "hello") eq_refl eq_refl eq_refl eq_refl
              ltac:(simpl; lia) ltac:(simpl; lia))
    as (d' & el' & H1 & H2 & H3 & _).
  exists d', el'. split; [exact H1|]. split; [exact H2|]. split.
  - exact (H3 0%nat "h"%char None eq_refl).
  - exact (H3 2%nat "l"%char None eq_refl).
Defined.

(** X12: whatever the store looks like, tree or not, when
    [setLinkOnAllChildren] returns, every host call it made is a
    setLinkUrl with the given link on an element that has no child list
    or an empty one, and the document keeps its shape. *)
Theorem X12_only_childless_elements_are_linked
    (fuel : nat) (element : ref) (link : string) (d d1 : Document)
    (tr : list Event) :
  setLinkOnAllChildren fuel element link d = Ret tt d1 tr ->
  Forall (fun ev => exists l el0, ev = SetLinkUrl l link
                      /\ elements d !! l = Some el0
                      /\ isLeafElement el0 = true) tr
  /\ sameShape d d1.
Proof.
  intros H. split.
  - exact (setLinkOnAllChildren_leaf_calls fuel element link d d d1 tr
             (sameShape_refl d) H).
  - destruct (tidy_setLinkOnAllChildren _ _ _ _ _ _ _ H) as (R & L & _).
    exact (replay_shape _ _ _ _ L R).
Qed.

Lemma X12_only_childless_elements_witness :
  exists d1,
    setLinkOnAllChildren 4 1%nat "L" Sample.sharedDoc
    = Ret tt d1 [SetLinkUrl 3%nat "L"; SetLinkUrl 3%nat "L"]
    /\ Forall (fun ev => exists l el0, ev = SetLinkUrl l "L"
                           /\ elements Sample.sharedDoc !! l = Some el0
                           /\ isLeafElement el0 = true)
         [SetLinkUrl 3%nat "L"; SetLinkUrl 3%nat "L"]
    /\ sameShape Sample.sharedDoc d1.
Proof.
  assert (H : exists d1, setLinkOnAllChildren 4 1%nat "L" Sample.sharedDoc
                         = Ret tt d1 [SetLinkUrl 3%nat "L"; SetLinkUrl 3%nat "L"])
    by (vm_compute; eauto).
  destruct H as (d1 & H). exists d1. split; [exact H|].
  exact (X12_only_childless_elements_are_linked 4 1%nat "L" Sample.sharedDoc d1 _ H).
Defined.

(** X13: linking a selection does not change what is selected as text:
    when [insertLink] returns on a document with a selection,
    [getSelectedText] gives afterwards what it gave before, the same
    fragments or the same fault. *)
Theorem X13_linking_keeps_the_selected_text
    (fuel : nat) (newText link : string) (d d1 : Document) (tr : list Event) :
  is_Some (selection d) ->
  insertLink fuel newText link d = Ret tt d1 tr ->
  match getSelectedText d with
  | Ret text _ _ => getSelectedText d1 = Ret text d1 []
  | Raise x _ _ => getSelectedText d1 = Raise x d1 []
  | OutOfFuel => False
  end.
Proof.
  intros [res Hsel] H. rewrite (insertLink_selection _ _ _ _ _ Hsel) in H.
  destruct (tidy_foldM link (fun _ e => insertLink_round fuel link e) tt res
              (fun _ e => tidy_insertLink_round fuel link e) _ _ _ _ H)
    as (R & L & _).
  apply getSelectedText_shape. exact (replay_shape _ _ _ _ L R).
Qed.

Lemma X13_linking_keeps_witness :
  exists d1 tr,
    insertLink 0 "w" "L" Sample.helloDoc = Ret tt d1 tr
    /\ getSelectedText d1 = Ret ["ell"] d1 [].
Proof.
  assert (H : exists d1 tr, insertLink 0 "w" "L" Sample.helloDoc = Ret tt d1 tr)
    by (vm_compute; eauto).
  destruct H as (d1 & tr & H). exists d1, tr. split; [exact H|].
  exact (X13_linking_keeps_the_selected_text 0 "w" "L" Sample.helloDoc d1 tr
           ltac:(simpl; eauto) H).
Defined.

(** X14: at a cursor inside the surrounding text, [insertLink] leaves
    the old text in place around the insertion: the new text is the part
    before the cursor, at most one space, [newText], at most one space,
    and the part after the cursor; and [newText] never touches a
    character that is not a space: what stands before it is empty or ends
    in a space, what stands after it is empty or begins with one. *)
Theorem X14_inserted_text_is_delimited
    (fuel : nat) (newText link : string) (d : Document) (p : Position)
    (el : Element) :
  selection d = None ->
  cursor d = Some p ->
  elements d !! getSurroundingText p = Some el ->
  (0 <= getSurroundingTextOffset p <= Z.of_nat (length (el_text el)))%Z ->
  exists d' tr el' before after lead trail,
    insertLink fuel newText link d = Ret tt d' tr
    /\ elements d' !! getSurroundingText p = Some el'
    /\ textOf el = before ++ after
    /\ String.length before = Z.to_nat (getSurroundingTextOffset p)
    /\ textOf el' = before ++ lead ++ newText ++ trail ++ after
    /\ (lead = "" \/ lead = " ") /\ (trail = "" \/ trail = " ")
    /\ (before = "" \/ exists y, before ++ lead = y ++ " ")
    /\ (after = "" \/ exists y, trail ++ after = " " ++ y).
Proof.
  intros Hsel Hcur Hel Hoff.
  pose proof (insertLink_at_cursor fuel newText link d p el Hsel Hcur Hel Hoff) as H.
  cbv zeta in H. rewrite padded_spec in H by (rewrite textOf_length; exact Hoff).
  set (o := Z.to_nat (getSurroundingTextOffset p)) in *.
  destruct (textOf_split el o) as [Hsplit Hlen]; [lia|].
  set (before := string_of_list_ascii (map fst (take o (el_text el)))) in *.
  set (after := string_of_list_ascii (map fst (drop o (el_text el)))) in *.
  pose proof (pads_delimit before after) as Hpads. cbv zeta in Hpads.
  rewrite Hlen, <- Hsplit in Hpads.
  eexists _, _, _, before, after,
    (pad (wantsSpace (charBefore (textOf el) o))),
    (pad (wantsSpace (charAfter (textOf el) o))).
  split; [exact H|]. split.
  { rewrite store_lookup. destruct (decide _); [reflexivity|congruence]. }
  split; [exact Hsplit|]. split; [exact Hlen|]. split.
  { unfold textOf at 1. cbn [el_text withText].
    rewrite !map_app, map_map. cbn [fst]. rewrite map_id.
    rewrite !string_of_list_ascii_app, string_of_list_ascii_of_string.
    fold before after. rewrite !append_assoc. reflexivity. }
  split; [unfold pad; destruct (wantsSpace _); auto|].
  split; [unfold pad; destruct (wantsSpace (charAfter _ _)); auto|].
  exact Hpads.
Qed.

Lemma X14_inserted_text_witness :
  exists d' tr el' before after lead trail,
    insertLink 0 "link" "L" (Sample.cursorDoc "a b" 1) = Ret tt d' tr
    /\ elements d' !! 1%nat = Some el'
    /\ "a b" = before ++ after
    /\ String.length before = 1%nat
    /\ textOf el' = before ++ lead ++ "link" ++ trail ++ after
    /\ (lead = "" \/ lead = " ") /\ (trail = "" \/ trail = " ")
    /\ (before = "" \/ exists y, before ++ lead = y ++ " ")
    /\ (after = "" \/ exists y, trail ++ after = " " ++ y).
Proof.
  exact (X14_inserted_text_is_delimited 0 "link" "L" (Sample.cursorDoc "a b" 1)
           (mkPosition 1%nat 1) (Sample.textElement "a b")
           eq_refl eq_refl eq_refl ltac:(simpl; lia)).
Defined.
